(** * Custom-field construction, validation and marshaling of jira-cli

    Shallow embedding of
    - [ValidateCustomFields] and [ValidateAndFilterCustomFields]
      (internal/cmdcommon, here src/unnamed/part_000),
    - [transitionFieldsMarshaler.MarshalJSON] and
      [BuildCustomFieldsForTransition] (pkg/jira/transition.go, here
      src/unnamed/part_001),
    - [GetIssueTypeFields] (pkg/jira/createmeta.go).

    Go strings are byte strings; they are modelled as [list ascii].
    The [strings] functions are modelled on ASCII input: [ToLower] maps
    A-Z to a-z and [TrimSpace] strips the six ASCII white-space bytes
    (the Unicode-only spaces are multi-byte and not modelled).
    A Go [map] is modelled as an association list without duplicate keys,
    listed in the order in which a [range] loop visits it. *)

From Stdlib Require Import List Bool Arith Lia Ascii String Permutation Sorted.
Import ListNotations.
Set Warnings "-register-all".

Definition str := list ascii.

(** String literals of the source, as byte lists. *)
Definition lit (s : string) : str := list_ascii_of_string s.

Definition str_eqb (a b : str) : bool :=
  if list_eq_dec ascii_dec a b then true else false.

Lemma str_eqb_eq (a b : str) : str_eqb a b = true <-> a = b.
Proof.
  unfold str_eqb; destruct (list_eq_dec ascii_dec a b); split; congruence.
Qed.

Lemma str_eqb_refl (a : str) : str_eqb a a = true.
Proof. apply str_eqb_eq; reflexivity. Qed.

Lemma str_eqb_neq (a b : str) : str_eqb a b = false <-> a <> b.
Proof.
  unfold str_eqb; destruct (list_eq_dec ascii_dec a b); split; congruence.
Qed.

(** ** The [strings] package on ASCII *)

(** [unicode.IsSpace] on ASCII: '\t', '\n', '\v', '\f', '\r', ' '. *)
Definition is_space (c : ascii) : bool :=
  match nat_of_ascii c with
  | 9 | 10 | 11 | 12 | 13 | 32 => true
  | _ => false
  end.

Fixpoint TrimLeftSpace (s : str) : str :=
  match s with
  | [] => []
  | c :: s' => if is_space c then TrimLeftSpace s' else s
  end.

Definition TrimRightSpace (s : str) : str := rev (TrimLeftSpace (rev s)).

(** [strings.TrimSpace] *)
Definition TrimSpace (s : str) : str := TrimRightSpace (TrimLeftSpace s).

Definition lower_byte (c : ascii) : ascii :=
  let n := nat_of_ascii c in
  if (65 <=? n) && (n <=? 90) then ascii_of_nat (n + 32) else c.

(** [strings.ToLower] *)
Definition ToLower (s : str) : str := map lower_byte s.

(** [strings.ReplaceAll(s, old, new)] for a one-byte [old] and [new]. *)
Definition ReplaceAll (s : str) (old new : ascii) : str :=
  map (fun c => if Ascii.eqb c old then new else c) s.

(** [strings.Split(s, sep)] for a one-byte separator: [n] separators give
    [n+1] pieces, so [Split("", ",")] is [[""]]. *)
Fixpoint Split (s : str) (sep : ascii) : list str :=
  match s with
  | [] => [[]]
  | c :: s' =>
      let rest := Split s' sep in
      if Ascii.eqb c sep then [] :: rest
      else match rest with
           | p :: ps => (c :: p) :: ps
           | [] => [[c]]
           end
  end.

(** [strings.Join(elems, sep)] *)
Fixpoint Join (l : list str) (sep : str) : str :=
  match l with
  | [] => []
  | [x] => x
  | x :: l' => x ++ sep ++ Join l' sep
  end.

(** [strings.HasPrefix(s, prefix)] *)
Fixpoint HasPrefix (s prefix : str) {struct prefix} : bool :=
  match prefix with
  | [] => true
  | p :: prefix' =>
      match s with
      | [] => false
      | c :: s' => Ascii.eqb p c && HasPrefix s' prefix'
      end
  end.

(** ** Go maps *)

Definition gomap (V : Type) := list (str * V).

(** [m[k]] with the comma-ok form. *)
Fixpoint lookup {V} (k : str) (m : gomap V) : option V :=
  match m with
  | [] => None
  | (k', v) :: m' => if str_eqb k k' then Some v else lookup k m'
  end.

(** [m[k] = v]: overwrites an existing entry, otherwise adds one. *)
Fixpoint insert {V} (k : str) (v : V) (m : gomap V) : gomap V :=
  match m with
  | [] => [(k, v)]
  | (k', v') :: m' =>
      if str_eqb k k' then (k, v) :: m' else (k', v') :: insert k v m'
  end.

Lemma lookup_insert {V} (k k' : str) (v : V) (m : gomap V) :
  lookup k (insert k' v m) = if str_eqb k k' then Some v else lookup k m.
Proof.
  induction m as [|[k0 v0] m IH]; simpl.
  - reflexivity.
  - destruct (str_eqb k' k0) eqn:E1; simpl.
    + apply str_eqb_eq in E1; subst k0.
      destruct (str_eqb k k'); reflexivity.
    + destruct (str_eqb k k0) eqn:E2.
      * apply str_eqb_eq in E2; subst k0.
        destruct (str_eqb k k') eqn:E3; [|reflexivity].
        apply str_eqb_eq in E3; subst k'. rewrite str_eqb_refl in E1.
        discriminate.
      * exact IH.
Qed.

(** ** Field schemas *)

(** [jira.IssueTypeField]: [Key], [Name] and the nested [Schema]. *)
Record FieldSchemaT := { DataType : str; Items : str }.
Record IssueTypeField := { Key : str; Name : str; Schema : FieldSchemaT }.

(** The user-facing identifier computed in every function of the engine:
    [strings.ReplaceAll(strings.ToLower(strings.TrimSpace(name)), " ", "-")]. *)
Definition identifier (name : str) : str :=
  ReplaceAll (ToLower (TrimSpace name)) " "%char "-"%char.

(** Modelled from the spec: the [customFieldFormat*] constants of package
    [jira] (declared in create.go, outside the sources): the data types
    option, project, array and number of the spec's field schema model. *)
Definition customFieldFormatOption : str := lit "option".
Definition customFieldFormatProject : str := lit "project".
Definition customFieldFormatArray : str := lit "array".
Definition customFieldFormatNumber : str := lit "number".

(** ** Building the custom-field set (transition.go) *)

Section Build.

(** [float64] and [strconv.ParseFloat(s, 64)], which either parses [s] or
    returns an error (here [None]). *)
Variable float64 : Type.
Variable ParseFloat : str -> option float64.

(** The dynamic values stored in a [customField] map: a bare string,
    [customFieldTypeNumber], [customFieldTypeOption], [customFieldTypeProject],
    [[]customFieldTypeOption] and [[]string]. *)
Inductive cfval :=
| CFString (s : str)
| CFNumber (f : float64)
| CFOption (value : str)
| CFProject (value : str)
| CFOptionList (values : list str)
| CFStringList (values : list str).

(** The body of the [switch configured.Schema.DataType] of
    [BuildCustomFieldsForTransition], for the value [val]. The option list
    stores, for each piece, [customFieldTypeOption{Value: TrimSpace(p)}]. *)
Definition classify (val : str) (configured : IssueTypeField) : cfval :=
  let dt := DataType (Schema configured) in
  if str_eqb dt customFieldFormatOption then CFOption val
  else if str_eqb dt customFieldFormatProject then CFProject val
  else if str_eqb dt customFieldFormatArray then
    let pieces := Split (TrimSpace val) ","%char in
    if str_eqb (Items (Schema configured)) customFieldFormatOption
    then CFOptionList (map TrimSpace pieces)
    else CFStringList (map TrimSpace pieces)
  else if str_eqb dt customFieldFormatNumber then
    match ParseFloat val with
    | None => CFString val
    | Some num => CFNumber num
    end
  else CFString val.

(** One iteration of the inner loop [for _, configured := range
    configuredFields] for the requested pair [(key, val)]. *)
Definition build_step (key val : str) (cf : gomap cfval)
    (configured : IssueTypeField) : gomap cfval :=
  let ident := identifier (Name configured) in
  if negb (str_eqb ident (ToLower key)) then cf
  else insert (Key configured) (classify val configured) cf.

(** [BuildCustomFieldsForTransition]; [None] is the nil map. *)
Definition BuildCustomFieldsForTransition (fields : gomap str)
    (configuredFields : list IssueTypeField) : option (gomap cfval) :=
  match fields, configuredFields with
  | [], _ | _, [] => None
  | _, _ =>
      Some (fold_left
              (fun cf '(key, val) => fold_left (build_step key val) configuredFields cf)
              fields [])
  end.

End Build.

Arguments CFString {float64}.
Arguments CFNumber {float64}.
Arguments CFOption {float64}.
Arguments CFProject {float64}.
Arguments CFOptionList {float64}.
Arguments CFStringList {float64}.

Arguments classify {float64} ParseFloat val configured.
Arguments build_step {float64} ParseFloat key val cf configured.
Arguments BuildCustomFieldsForTransition {float64} ParseFloat fields configuredFields.

(** ** The lenient check [ValidateCustomFields] (cmdcommon) *)

(** The map [fieldsMap] from identifiers to configured names. *)
Definition lenient_fieldsMap (configuredFields : list IssueTypeField) : gomap str :=
  fold_left (fun m configured =>
               insert (identifier (Name configured)) (Name configured) m)
            configuredFields [].

(** [ValidateCustomFields] returns nothing; its only effect is the warning
    [cmdutil.Warn] printed when [invalidCustomFields] is not empty, which
    joins those names. The model returns [invalidCustomFields]: the names
    the warning reports, in iteration order. *)
Definition ValidateCustomFields (fields : gomap str)
    (configuredFields : list IssueTypeField) : list str :=
  match fields with
  | [] => []
  | _ =>
      let fieldsMap := lenient_fieldsMap configuredFields in
      fold_left (fun invalid '(key, _) =>
                   match lookup key fieldsMap with
                   | Some _ => invalid
                   | None => invalid ++ [key]
                   end)
                fields []
  end.

(** ** [fmt.Errorf] with a format string and no arguments *)

Definition is_digit (c : ascii) : bool :=
  let n := nat_of_ascii c in (48 <=? n) && (n <=? 57).

Definition is_fmt_flag (c : ascii) : bool :=
  existsb (Ascii.eqb c) ["#"; "0"; "+"; "-"; " "]%char.

Fixpoint drop_while (p : ascii -> bool) (s : str) : str :=
  match s with
  | [] => []
  | c :: s' => if p c then drop_while p s' else s
  end.

(** One directive after a ['%']: flags, width and precision are skipped,
    then ['%'] prints a percent sign, a missing verb gives
    ["%!(NOVERB)"], and any other verb, having no operand, gives
    ["%!v(MISSING)"]. (Argument indexes and ['*'] are not modelled.)
    Returns the output and the rest of the format. *)
Definition fmt_directive (s : str) : str * str :=
  let s1 := drop_while is_digit (drop_while is_fmt_flag s) in
  let s2 := match s1 with
            | c :: r => if Ascii.eqb c "." then drop_while is_digit r else s1
            | [] => s1
            end in
  match s2 with
  | [] => (lit "%!(NOVERB)", [])
  | v :: r =>
      if Ascii.eqb v "%" then (["%"%char], r)
      else (lit "%!" ++ [v] ++ lit "(MISSING)", r)
  end.

Fixpoint sprintf_noargs (fuel : nat) (format : str) : str :=
  match fuel with
  | 0 => format
  | S fuel' =>
      match format with
      | [] => []
      | c :: rest =>
          if Ascii.eqb c "%" then
            let '(out, rest') := fmt_directive rest in
            out ++ sprintf_noargs fuel' rest'
          else c :: sprintf_noargs fuel' rest
      end
  end.

(** The message of [fmt.Errorf(format)]. *)
Definition Errorf (format : str) : str :=
  sprintf_noargs (List.length format) format.

(** ** The strict validator [ValidateAndFilterCustomFields] (cmdcommon) *)

Definition nl : str := [ascii_of_nat 10].

(** [configuredMap]: identifier to field key; a later schema with the same
    identifier overwrites an earlier one. *)
Definition configuredMap (configuredFields : list IssueTypeField) : gomap str :=
  fold_left (fun m field => insert (identifier (Name field)) (Key field) m)
            configuredFields [].

(** [availableMap]: field key to field. *)
Definition availableMap (available : list IssueTypeField)
    : gomap IssueTypeField :=
  fold_left (fun m field => insert (Key field) field m) available [].

Record vstate := {
  validFields : gomap str;
  invalidFields : list str;
  invalidFieldKeys : list str
}.

(** One iteration of [for requestedName, value := range requested]. *)
Definition validate_step (cmap : gomap str) (amap : gomap IssueTypeField)
    (st : vstate) (entry : str * str) : vstate :=
  let '(requestedName, value) := entry in
  match lookup (ToLower requestedName) cmap with
  | None =>
      {| validFields := validFields st;
         invalidFields := invalidFields st ++ [requestedName];
         invalidFieldKeys := invalidFieldKeys st |}
  | Some fieldKey =>
      match lookup fieldKey amap with
      | Some _ =>
          {| validFields := insert requestedName value (validFields st);
             invalidFields := invalidFields st;
             invalidFieldKeys := invalidFieldKeys st |}
      | None =>
          {| validFields := validFields st;
             invalidFields := invalidFields st ++ [requestedName];
             invalidFieldKeys := invalidFieldKeys st ++ [fieldKey] |}
      end
  end.

(** [availableCustomFields]: identifiers of the available fields whose key
    starts with "customfield_" and whose name is not empty. *)
Definition availableCustomFields (available : list IssueTypeField) : list str :=
  map (fun field => identifier (Name field))
      (filter (fun field => HasPrefix (Key field) (lit "customfield_")
                            && negb (str_eqb (Name field) []))
              available).

(** [errMsg], before it is handed to [fmt.Errorf]. *)
Definition errMsg (issueTypeName : str) (invalid keys avail : list str) : str :=
  lit "Invalid custom fields for issue type '" ++ issueTypeName ++ lit "': "
  ++ Join invalid (lit ", ") ++ nl ++ nl
  ++ lit "These fields are not available on the create/edit screen for this issue type." ++ nl
  ++ lit "This is a Jira project configuration issue, not a CLI problem." ++ nl ++ nl
  ++ match keys with
     | [] => []
     | _ => lit "Field IDs: " ++ Join keys (lit ", ") ++ nl ++ nl
     end
  ++ match avail with
     | [] => lit "No custom fields are available for this issue type." ++ nl ++ nl
     | _ => lit "Available custom fields for '" ++ issueTypeName ++ lit "':" ++ nl
            ++ lit "  " ++ Join avail (nl ++ lit "  ") ++ nl ++ nl
     end
  ++ lit "To fix this:" ++ nl
  ++ lit "1. Check your Jira project's screen configuration" ++ nl
  ++ lit "2. Add the required fields to the issue type's create screen" ++ nl
  ++ lit "3. Or use only the fields listed as available above".

(** [ValidateAndFilterCustomFields]: the filtered map ([None] is nil) and
    the error ([None] is nil, [Some msg] its message). *)
Definition ValidateAndFilterCustomFields (requested : gomap str)
    (available configuredFields : list IssueTypeField) (issueTypeName : str)
    : option (gomap str) * option str :=
  match requested with
  | [] => (Some requested, None)
  | _ =>
      let st := fold_left (validate_step (configuredMap configuredFields)
                                         (availableMap available))
                          requested
                          {| validFields := []; invalidFields := [];
                             invalidFieldKeys := [] |} in
      match invalidFields st with
      | [] => (Some (validFields st), None)
      | _ => (None, Some (Errorf (errMsg issueTypeName (invalidFields st)
                                         (invalidFieldKeys st)
                                         (availableCustomFields available))))
      end
  end.

(** ** [encoding/json] *)

(** The token tree that [json.Marshal] writes, object members in the order
    it writes them; numbers keep their text. *)
Inductive json :=
| JNull
| JBool (b : bool)
| JNumber (text : str)
| JString (s : str)
| JArray (elems : list json)
| JObject (members : list (str * json)).

(** A value decoded into [interface{}]: [map[string]interface{}] for
    objects. *)
Inductive gval :=
| GNull
| GBool (b : bool)
| GNumber (text : str)
| GString (s : str)
| GArray (elems : list gval)
| GMap (m : gomap gval).

(** Byte order of Go string comparison. *)
Fixpoint str_ltb (a b : str) : bool :=
  match a, b with
  | [], [] => false
  | [], _ :: _ => true
  | _ :: _, [] => false
  | x :: a', y :: b' =>
      if nat_of_ascii x <? nat_of_ascii y then true
      else if nat_of_ascii y <? nat_of_ascii x then false
      else str_ltb a' b'
  end.

Fixpoint insert_by_key {A} (e : str * A) (l : list (str * A)) : list (str * A) :=
  match l with
  | [] => [e]
  | e' :: l' => if str_ltb (fst e) (fst e') then e :: l else e' :: insert_by_key e l'
  end.

(** [json.Marshal] of a map writes its entries sorted by key. *)
Definition sort_by_key {A} (l : list (str * A)) : list (str * A) :=
  fold_right insert_by_key [] l.

(** [utf8.DecodeRuneInString]: the width of the valid UTF-8 encoding at
    the head of [s] (the accept ranges of package [unicode/utf8]), or 0
    where it returns [RuneError] of width 1. *)
Definition in_range (c : ascii) (lo hi : nat) : bool :=
  (lo <=? nat_of_ascii c) && (nat_of_ascii c <=? hi).

Definition rune_len (s : str) : nat :=
  match s with
  | [] => 0
  | b0 :: rest =>
      let x := nat_of_ascii b0 in
      if x <? 128 then 1
      else if (194 <=? x) && (x <=? 223) then
        match rest with
        | b1 :: _ => if in_range b1 128 191 then 2 else 0
        | _ => 0
        end
      else if (224 <=? x) && (x <=? 239) then
        let lo := if x =? 224 then 160 else 128 in
        let hi := if x =? 237 then 159 else 191 in
        match rest with
        | b1 :: b2 :: _ => if in_range b1 lo hi && in_range b2 128 191 then 3 else 0
        | _ => 0
        end
      else if (240 <=? x) && (x <=? 244) then
        let lo := if x =? 240 then 144 else 128 in
        let hi := if x =? 244 then 143 else 191 in
        match rest with
        | b1 :: b2 :: b3 :: _ =>
            if in_range b1 lo hi && in_range b2 128 191 && in_range b3 128 191 then 4 else 0
        | _ => 0
        end
      else 0
  end.

(** Whether [s] starts with U+2028 or U+2029 (E2 80 A8, E2 80 A9). *)
Definition line_sep (s : str) : bool :=
  match s with
  | b0 :: b1 :: b2 :: _ =>
      (nat_of_ascii b0 =? 226) && (nat_of_ascii b1 =? 128)
      && ((nat_of_ascii b2 =? 168) || (nat_of_ascii b2 =? 169))
  | _ => false
  end.

Definition hex_digit (n : nat) : ascii := nth n (lit "0123456789abcdef") "0"%char.

(** [appendString] of [encoding/json] (Go 1.22 and later) with
    [escapeHTML] set, on one ASCII byte: quote and backslash, then
    backspace, form feed, newline, carriage return and tab by a backslash
    sequence, the other control bytes and the HTML-sensitive bytes [<],
    [>] and [&] as [\u00XX]. *)
Definition escape_byte (c : ascii) : str :=
  let n := nat_of_ascii c in
  let bs := ascii_of_nat 92 in
  if (n =? 34) || (n =? 92) then [bs; c]
  else if n =? 8 then [bs; "b"%char]
  else if n =? 12 then [bs; "f"%char]
  else if n =? 10 then [bs; "n"%char]
  else if n =? 13 then [bs; "r"%char]
  else if n =? 9 then [bs; "t"%char]
  else if (n <? 32) || (n =? 60) || (n =? 62) || (n =? 38)
  then [bs; "u"%char; "0"%char; "0"%char; hex_digit (n / 16); hex_digit (n mod 16)]
  else [c].

(** The loop of [appendString] over the bytes of [s]: an ASCII byte is
    escaped as above; a byte where [utf8.DecodeRuneInString] fails is
    written as the six bytes [\ufffd]; U+2028 and U+2029 are written as
    [\u2028] and [\u2029]; any other valid UTF-8 sequence is copied. Each
    step consumes at least one byte, so [List.length s] steps suffice. *)
Fixpoint append_string (fuel : nat) (s : str) : str :=
  match fuel with
  | 0 => []
  | S fuel' =>
      match s with
      | [] => []
      | b :: rest =>
          if nat_of_ascii b <? 128 then escape_byte b ++ append_string fuel' rest
          else match rune_len s with
               | 0 => lit "\ufffd" ++ append_string fuel' rest
               | k =>
                   (if line_sep s
                    then [ascii_of_nat 92; "u"%char; "2"%char; "0"%char; "2"%char;
                          hex_digit (nat_of_ascii (nth 2 s "0"%char) - 160)]
                    else firstn k s)
                   ++ append_string fuel' (skipn k s)
               end
      end
  end.

Definition quote (s : str) : str :=
  [ascii_of_nat 34] ++ append_string (List.length s) s ++ [ascii_of_nat 34].

(** The UTF-8 encoding EF BF BD of U+FFFD. *)
Definition replacement_char : str := map ascii_of_nat [239; 191; 189].

(** The string [json.Unmarshal] gives back for the bytes [quote s]: every
    escape is undone, so ASCII bytes and valid UTF-8 sequences come back
    unchanged, while each byte written as [\ufffd] comes back as U+FFFD. *)
Fixpoint unquote_quoted (fuel : nat) (s : str) : str :=
  match fuel with
  | 0 => []
  | S fuel' =>
      match s with
      | [] => []
      | b :: rest =>
          if nat_of_ascii b <? 128 then b :: unquote_quoted fuel' rest
          else match rune_len s with
               | 0 => replacement_char ++ unquote_quoted fuel' rest
               | k => firstn k s ++ unquote_quoted fuel' (skipn k s)
               end
      end
  end.

Definition roundtrip_string (s : str) : str := unquote_quoted (List.length s) s.

(** [utf8.ValidString] *)
Fixpoint valid_utf8 (fuel : nat) (s : str) : bool :=
  match fuel with
  | 0 => true
  | S fuel' =>
      match s with
      | [] => true
      | b :: rest =>
          if nat_of_ascii b <? 128 then valid_utf8 fuel' rest
          else match rune_len s with
               | 0 => false
               | k => valid_utf8 fuel' (skipn k s)
               end
      end
  end.

Definition ValidString (s : str) : bool := valid_utf8 (List.length s) s.

(** [json.Unmarshal] into [interface{}] of the bytes written for the tree
    [j]: strings (keys included) come back through [roundtrip_string], and
    a repeated member overwrites the earlier one. Numbers, which the static
    transition fields never hold, keep their text. *)
Fixpoint decode (j : json) : gval :=
  match j with
  | JNull => GNull
  | JBool b => GBool b
  | JNumber t => GNumber t
  | JString s => GString (roundtrip_string s)
  | JArray l => GArray (map decode l)
  | JObject l =>
      GMap (fold_left (fun m kv => insert (fst kv) (snd kv) m)
                      (map (fun kv => (roundtrip_string (fst kv), decode (snd kv))) l) [])
  end.

(** [json.Marshal] of a decoded value. *)
Fixpoint encode_gval (g : gval) : json :=
  match g with
  | GNull => JNull
  | GBool b => JBool b
  | GNumber t => JNumber t
  | GString s => JString s
  | GArray l => JArray (map encode_gval l)
  | GMap m => JObject (sort_by_key (map (fun kv => (fst kv, encode_gval (snd kv))) m))
  end.

(** The bytes written for a token tree. *)
Fixpoint encode (j : json) : str :=
  match j with
  | JNull => lit "null"
  | JBool b => if b then lit "true" else lit "false"
  | JNumber t => t
  | JString s => quote s
  | JArray l => lit "[" ++ Join (map encode l) (lit ",") ++ lit "]"
  | JObject l =>
      lit "{" ++ Join (map (fun kv => quote (fst kv) ++ lit ":" ++ encode (snd kv)) l)
                      (lit ",")
      ++ lit "}"
  end.

(** ** The transition payload marshaler (transition.go) *)

Section Marshal.

(** The values of a [customField] map are [interface{}]; [EncodeV] is
    [json.Marshal] on one of them: the token tree it writes, or its error
    (an [UnsupportedValueError] for a [customFieldTypeNumber] holding NaN
    or an infinity, which [strconv.ParseFloat] accepts). *)
Variable V : Type.
Variable EncodeV : V -> json + str.

(** [TransitionRequestFields]: [Assignee] and [Resolution] hold the [Name]
    of their pointed-to struct ([None] is a nil pointer); [customFields]
    is unexported ([None] is a nil map). *)
Record TransitionRequestFields := {
  Assignee : option str;
  Resolution : option str;
  customFields : option (gomap V)
}.

(** [json.Marshal(tfm.M)]: the exported fields in declaration order, with
    [omitempty] dropping nil pointers; [customFields] is unexported and not
    written. *)
Definition static_members (f : TransitionRequestFields) : list (str * json) :=
  match Assignee f with
  | Some n => [(lit "assignee", JObject [(lit "name", JString n)])]
  | None => []
  end
  ++ match Resolution f with
     | Some n => [(lit "resolution", JObject [(lit "name", JString n)])]
     | None => []
     end.

(** The static members with the names as the JSON round trip leaves
    them. *)
Definition static_members_decoded (f : TransitionRequestFields) : list (str * json) :=
  static_members {| Assignee := option_map roundtrip_string (Assignee f);
                    Resolution := option_map roundtrip_string (Resolution f);
                    customFields := customFields f |}.

(** An entry of [dm map[string]interface{}]: a decoded value or an injected
    custom-field value. *)
Inductive mval :=
| MDecoded (g : gval)
| MCustom (v : V).

Definition encode_mval (x : mval) : json + str :=
  match x with
  | MDecoded g => inl (encode_gval g)
  | MCustom v => EncodeV v
  end.

Definition custom_entries (cf : option (gomap V)) : gomap V :=
  match cf with
  | Some m => m
  | None => []
  end.

(** The map [dm] after the injection loop, or [None] when the type
    assertion [temp.(map[string]interface{})] would panic. *)
Definition merged_map (f : TransitionRequestFields) : option (gomap mval) :=
  match decode (JObject (static_members f)) with
  | GMap dm =>
      Some (fold_left (fun dm kv => insert (fst kv) (MCustom (snd kv)) dm)
                      (custom_entries (customFields f))
                      (map (fun kv => (fst kv, MDecoded (snd kv))) dm))
  | _ => None
  end.

(** The final [json.Marshal(dm)] encodes the entries in sorted key order
    and stops at the first value it cannot encode. *)
Fixpoint encode_members (l : list (str * mval)) : list (str * json) + str :=
  match l with
  | [] => inl []
  | kx :: l' =>
      match encode_mval (snd kx) with
      | inr e => inr e
      | inl j =>
          match encode_members l' with
          | inl js => inl ((fst kx, j) :: js)
          | inr e => inr e
          end
      end
  end.

(** [transitionFieldsMarshaler.MarshalJSON]: [None] is the panic of the
    type assertion; otherwise the bytes written ([inl]) or the error
    ([inr]). The first [json.Marshal] and the [json.Unmarshal] cannot fail
    on this struct. *)
Definition MarshalJSON (f : TransitionRequestFields) : option (str + str) :=
  match merged_map f with
  | Some dm =>
      Some (match encode_members (sort_by_key dm) with
            | inl ms => inl (encode (JObject ms))
            | inr e => inr e
            end)
  | None => None
  end.

(** [NewTransitionFieldsMarshaler(fields, customFields)]. *)
Definition NewTransitionFieldsMarshaler (fields : TransitionRequestFields)
    (cf : option (gomap V)) : TransitionRequestFields :=
  {| Assignee := Assignee fields; Resolution := Resolution fields;
     customFields := cf |}.

End Marshal.

Arguments Assignee {V}.
Arguments Resolution {V}.
Arguments customFields {V}.
Arguments Build_TransitionRequestFields {V}.
Arguments static_members {V} f.
Arguments static_members_decoded {V} f.
Arguments MDecoded {V}.
Arguments MCustom {V}.
Arguments encode_mval {V} EncodeV x.
Arguments custom_entries {V} cf.
Arguments merged_map {V} f.
Arguments encode_members {V} EncodeV l.
Arguments MarshalJSON {V} EncodeV f.
Arguments NewTransitionFieldsMarshaler {V} fields cf.

(** ** [GetIssueTypeFields] (createmeta.go) *)

Module CreateMeta.

(** [CreateMetaIssueType]: the embedded [IssueType]'s [ID] and the
    [Fields] map. *)
Record IssueType := { ID : str; Fields : gomap IssueTypeField }.

(** An element of [CreateMetaResponse.Projects]; [IssueTypes] is a
    [[]*CreateMetaIssueType], whose elements are nil ([None]) for a JSON
    [null]. *)
Record Project := { Key : str; Name : str; IssueTypes : list (option IssueType) }.

Record Response := { Projects : list Project }.

(** A Go [(value, error)] pair where exactly one side is used. *)
Inductive result (A : Type) :=
| Ok (a : A)
| Err (msg : str).
Arguments Ok {A}.
Arguments Err {A}.

(** The loop over [meta.Projects[0].IssueTypes]: [Some (Some it)] for the
    first issue type with the ID, [Some None] when the loop ends, and
    [None] for the panic of [issueType.ID] on a nil element. *)
Fixpoint find_issue_type (issueTypeID : str) (its : list (option IssueType))
    : option (option IssueType) :=
  match its with
  | [] => Some None
  | None :: _ => None
  | Some it :: its' =>
      if str_eqb (ID it) issueTypeID then Some (Some it)
      else find_issue_type issueTypeID its'
  end.

(** [GetIssueTypeFields(project, issueTypeID)], given the result of the
    [c.GetCreateMeta] call it makes (an HTTP request, here an input);
    [None] is a panic. *)
Definition GetIssueTypeFields (meta : result Response)
    (project issueTypeID : str) : option (result (list IssueTypeField)) :=
  match meta with
  | Err e => Some (Err e)
  | Ok m =>
      match Projects m with
      | [] => Some (Err (lit "no project found for key: " ++ project))
      | p :: _ =>
          match find_issue_type issueTypeID (IssueTypes p) with
          | None => None
          | Some (Some it) => Some (Ok (map snd (Fields it)))
          | Some None => Some (Err (lit "issue type with ID " ++ issueTypeID
                                    ++ lit " not found in project " ++ project))
          end
      end
  end.

End CreateMeta.

(** ** HTTP calls of the client (transition.go, createmeta.go) *)

(** The outcome of [c.Get], [c.GetV2] or [c.PostV2]: a non-nil error, a
    nil response with a nil error, or a response with its status code and
    body. Errors are represented by their messages. *)
Inductive http_result :=
| HTTPErr (e : str)
| HTTPNil
| HTTPRes (status : nat) (body : str).

Section Client.

(** [ErrEmptyResponse] and [formatUnexpectedResponse(res)] of package
    [jira] (outside the sources): the error for a nil response, and the
    error built from an unexpected response (its status and body). *)
Variable ErrEmptyResponse : str.
Variable formatUnexpectedResponse : nat -> str -> str.

(** [c.Get] (API v3) and [c.GetV2]: the outcome of a GET of a path, and
    [c.PostV2]: the outcome of a POST of a body to a path. *)
Variable Get GetV2 : str -> http_result.
Variable PostV2 : str -> str -> http_result.

(** [fmt.Sprintf("/issue/%s/transitions", key)] *)
Definition transitions_path (key : str) : str :=
  lit "/issue/" ++ key ++ lit "/transitions".

(** The API version constants [apiVersion2] and [apiVersion3] of package
    [jira], the element type [Transition] of the response, and
    [json.NewDecoder(res.Body).Decode(&out)]: [out.Transitions] after the
    call, with the decoder's error. *)
Variables apiVersion2 apiVersion3 : str.
Variable TransitionT : Type.
Variable DecodeTransitions : str -> list TransitionT * option str.

(** [c.transitions(key, ver)]; a nil slice is [[]]. *)
Definition transitions (key ver : str) : list TransitionT * option str :=
  let path := transitions_path key in
  let res := if str_eqb ver apiVersion2 then GetV2 path else Get path in
  match res with
  | HTTPErr e => ([], Some e)
  | HTTPNil => ([], Some ErrEmptyResponse)
  | HTTPRes status body =>
      if negb (status =? 200) then ([], Some (formatUnexpectedResponse status body))
      else DecodeTransitions body
  end.

Definition Transitions (key : str) : list TransitionT * option str :=
  transitions key apiVersion3.

Definition TransitionsV2 (key : str) : list TransitionT * option str :=
  transitions key apiVersion2.

(** The request type [TransitionRequest] and [json.Marshal(&data)]: the
    body written, or the marshaling error. *)
Variable TransitionRequest : Type.
Variable MarshalRequest : TransitionRequest -> str + str.

(** [c.Transition(key, data)]: the status code and the error. *)
Definition Transition (key : str) (data : TransitionRequest) : nat * option str :=
  match MarshalRequest data with
  | inr err => (0, Some err)
  | inl body =>
      match PostV2 (transitions_path key) body with
      | HTTPErr e => (0, Some e)
      | HTTPNil => (0, Some ErrEmptyResponse)
      | HTTPRes status b =>
          if negb (status =? 204) then (status, Some (formatUnexpectedResponse status b))
          else (status, None)
      end
  end.

(** [CreateMetaRequest] *)
Record CreateMetaRequest := { Projects : str; IssueTypeNames : str; Expand : str }.

(** The path built by [GetCreateMeta]. *)
Definition GetCreateMeta_path (req : CreateMetaRequest) : str :=
  lit "/issue/createmeta?projectKeys=" ++ Projects req ++ lit "&expand=" ++ Expand req
  ++ (if str_eqb (IssueTypeNames req) [] then []
      else lit "&issuetypeNames=" ++ IssueTypeNames req).

(** [json.NewDecoder(res.Body).Decode(&out)] into a [CreateMetaResponse]:
    [out] after the call, with the decoder's error. *)
Variable DecodeCreateMeta : str -> CreateMeta.Response * option str.

(** [c.GetCreateMeta(req)]: the response pointer ([None] is nil) and the
    error; on a decoding error both are returned. *)
Definition GetCreateMeta (req : CreateMetaRequest)
    : option CreateMeta.Response * option str :=
  match GetV2 (GetCreateMeta_path req) with
  | HTTPErr e => (None, Some e)
  | HTTPNil => (None, Some ErrEmptyResponse)
  | HTTPRes status body =>
      if negb (status =? 200) then (None, Some (formatUnexpectedResponse status body))
      else let '(out, err) := DecodeCreateMeta body in (Some out, err)
  end.

(** [c.GetIssueTypeFields(project, issueTypeID)] together with the call of
    [c.GetCreateMeta] it makes. [None] is a panic: the nil dereference of
    [meta.Projects] on a nil response with a nil error, or that of a nil
    issue type. *)
Definition GetIssueTypeFields_client (project issueTypeID : str)
    : option (CreateMeta.result (list IssueTypeField)) :=
  match GetCreateMeta {| Projects := project; IssueTypeNames := [];
                         Expand := lit "projects.issuetypes.fields" |} with
  | (_, Some e) => Some (CreateMeta.Err e)
  | (Some meta, None) =>
      CreateMeta.GetIssueTypeFields (CreateMeta.Ok meta) project issueTypeID
  | (None, None) => None
  end.

(** The path built by [GetCreateMetaForJiraServerV9]. *)
Definition GetCreateMetaForJiraServerV9_path (req : CreateMetaRequest) : str :=
  lit "/issue/createmeta/" ++ Projects req ++ lit "/issuetypes?expand=" ++ Expand req
  ++ (if str_eqb (IssueTypeNames req) [] then []
      else lit "&issuetypeNames=" ++ IssueTypeNames req).

(** [CreateMetaResponseJiraServerV9] and the decoding of a body into it:
    [out] after the call, with the decoder's error. *)
Variable ResponseV9 : Type.
Variable DecodeCreateMetaV9 : str -> ResponseV9 * option str.

(** [c.GetCreateMetaForJiraServerV9(req)] *)
Definition GetCreateMetaForJiraServerV9 (req : CreateMetaRequest)
    : option ResponseV9 * option str :=
  match GetV2 (GetCreateMetaForJiraServerV9_path req) with
  | HTTPErr e => (None, Some e)
  | HTTPNil => (None, Some ErrEmptyResponse)
  | HTTPRes status body =>
      if negb (status =? 200) then (None, Some (formatUnexpectedResponse status body))
      else let '(out, err) := DecodeCreateMetaV9 body in (Some out, err)
  end.

End Client.

Arguments transitions ErrEmptyResponse formatUnexpectedResponse Get GetV2 apiVersion2
  {TransitionT} DecodeTransitions key ver.
Arguments Transitions ErrEmptyResponse formatUnexpectedResponse Get GetV2 apiVersion2
  apiVersion3 {TransitionT} DecodeTransitions key.
Arguments TransitionsV2 ErrEmptyResponse formatUnexpectedResponse Get GetV2 apiVersion2
  {TransitionT} DecodeTransitions key.
Arguments Transition ErrEmptyResponse formatUnexpectedResponse PostV2 {TransitionRequest}
  MarshalRequest key data.
Arguments GetCreateMetaForJiraServerV9 ErrEmptyResponse formatUnexpectedResponse GetV2
  {ResponseV9} DecodeCreateMetaV9 req.

(** ** Interactive metadata (cmdcommon) *)

Module Survey.

(** A [survey.Question] whose prompt is a [survey.Input]: the question's
    [Name] and the prompt's [Message] and [Help]. *)
Record Question := { Name : str; Message : str; Help : str }.

(** The options of the [survey.MultiSelect] of [GetMetadata]. *)
Definition GetMetadataOptions : list str :=
  [lit "Priority"; lit "Components"; lit "Labels"; lit "FixVersions";
   lit "AffectsVersions"].

(** The [switch c] of [GetMetadataQuestions]: the question appended for
    the category [c], if any. *)
Definition metadata_question (c : str) : option Question :=
  if str_eqb c (lit "Priority") then
    Some {| Name := lit "priority"; Message := lit "Priority"; Help := [] |}
  else if str_eqb c (lit "Components") then
    Some {| Name := lit "components"; Message := lit "Components";
            Help := lit "Comma separated list of valid components. For eg: BE,FE" |}
  else if str_eqb c (lit "Labels") then
    Some {| Name := lit "labels"; Message := lit "Labels";
            Help := lit "Comma separated list of labels. For eg: backend,urgent" |}
  else if str_eqb c (lit "FixVersions") then
    Some {| Name := lit "fixversions"; Message := lit "Fix Versions";
            Help := lit "Comma separated list of fixVersions. For eg: v1.0-beta,v2.0" |}
  else if str_eqb c (lit "AffectsVersions") then
    Some {| Name := lit "affectsversions"; Message := lit "Affects Versions";
            Help := lit "Comma separated list of affectsVersions. For eg: v1.0-beta,v2.0" |}
  else None.

(** [GetMetadataQuestions(cat)] *)
Definition GetMetadataQuestions (cat : list str) : list Question :=
  fold_left (fun qs c => match metadata_question c with
                         | Some q => qs ++ [q]
                         | None => qs
                         end) cat [].

End Survey.

Module Answers.

(** The answer struct filled by the metadata questions in [HandleNoInput]. *)
Record t := {
  Priority : str; Labels : str; Components : str;
  FixVersions : str; AffectsVersions : str
}.

End Answers.

Module Create.

(** [CreateParams] *)
Record CreateParams := {
  Name : str; IssueType : str; IssueTypeID : str; ParentIssueKey : str;
  Summary : str; Body : str; Priority : str; Reporter : str; Assignee : str;
  Labels : list str; Components : list str; FixVersions : list str;
  AffectsVersions : list str; OriginalEstimate : str; CustomFields : gomap str;
  Template : str; NoInput : bool; Debug : bool
}.

(** The updates of [params] in [HandleNoInput] once the metadata questions
    are answered with [ans]. *)
Definition apply_metadata (params : CreateParams) (ans : Answers.t) : CreateParams :=
  {| Name := Name params; IssueType := IssueType params;
     IssueTypeID := IssueTypeID params; ParentIssueKey := ParentIssueKey params;
     Summary := Summary params; Body := Body params;
     Priority := if negb (str_eqb (Answers.Priority ans) [])
                 then Answers.Priority ans else Priority params;
     Reporter := Reporter params; Assignee := Assignee params;
     Labels := if 0 <? List.length (Answers.Labels ans)
               then Split (Answers.Labels ans) ","%char else Labels params;
     Components := if 0 <? List.length (Answers.Components ans)
                   then Split (Answers.Components ans) ","%char else Components params;
     FixVersions := if 0 <? List.length (Answers.FixVersions ans)
                    then Split (Answers.FixVersions ans) ","%char else FixVersions params;
     AffectsVersions := if 0 <? List.length (Answers.AffectsVersions ans)
                        then Split (Answers.AffectsVersions ans) ","%char
                        else AffectsVersions params;
     OriginalEstimate := OriginalEstimate params; CustomFields := CustomFields params;
     Template := Template params; NoInput := NoInput params; Debug := Debug params |}.

End Create.

(** ** Concrete inputs *)

(** A decimal-integer reader, standing in for [strconv.ParseFloat] in the
    concrete examples below. *)
Fixpoint digits_value (acc : nat) (s : str) : option nat :=
  match s with
  | [] => Some acc
  | c :: s' => if is_digit c then digits_value (acc * 10 + (nat_of_ascii c - 48)) s'
               else None
  end.

Definition parse_digits (s : str) : option nat :=
  match s with
  | [] => None
  | _ => digits_value 0 s
  end.

Definition field (name key dataType items : string) : IssueTypeField :=
  {| Key := lit key; Name := lit name;
     Schema := {| DataType := lit dataType; Items := lit items |} |}.

(** * Properties *)

(** ** Maps *)

Lemma lookup_in {V} (k : str) (v : V) (m : gomap V) :
  lookup k m = Some v -> In (k, v) m.
Proof.
  induction m as [|[k' v'] m IH]; simpl; [discriminate|].
  destruct (str_eqb k k') eqn:E.
  - apply str_eqb_eq in E; subst. intros H; injection H as ->. left; reflexivity.
  - intros H; right; apply IH, H.
Qed.

Lemma lookup_none {V} (k : str) (m : gomap V) :
  lookup k m = None <-> ~ In k (map fst m).
Proof.
  induction m as [|[k' v'] m IH]; simpl.
  - tauto.
  - destruct (str_eqb k k') eqn:E.
    + apply str_eqb_eq in E; subst. split; [discriminate|]. tauto.
    + apply str_eqb_neq in E. rewrite IH. split; intros H; [intros [H'|H']; [congruence|tauto]|tauto].
Qed.

Lemma lookup_nodup_in {V} (k : str) (v : V) (m : gomap V) :
  NoDup (map fst m) -> In (k, v) m -> lookup k m = Some v.
Proof.
  induction m as [|[k' v'] m IH]; simpl; [tauto|].
  intros Hnd Hin; inversion Hnd as [|? ? Hnot Hnd']; subst.
  destruct Hin as [Heq|Hin].
  - injection Heq as -> ->. rewrite str_eqb_refl. reflexivity.
  - destruct (str_eqb k k') eqn:E.
    + apply str_eqb_eq in E; subst. exfalso; apply Hnot.
      apply (in_map fst) in Hin; exact Hin.
    + apply IH; assumption.
Qed.

Lemma insert_keys {V} (k x : str) (v : V) (m : gomap V) :
  In x (map fst (insert k v m)) <-> x = k \/ In x (map fst m).
Proof.
  induction m as [|[k' v'] m IH]; simpl.
  - firstorder congruence.
  - destruct (str_eqb k k') eqn:E; simpl.
    + apply str_eqb_eq in E; subst. firstorder congruence.
    + rewrite IH. firstorder congruence.
Qed.

Lemma insert_nodup {V} (k : str) (v : V) (m : gomap V) :
  NoDup (map fst m) -> NoDup (map fst (insert k v m)).
Proof.
  induction m as [|[k' v'] m IH]; simpl; intros Hnd.
  - constructor; [tauto|constructor].
  - inversion Hnd as [|? ? Hnot Hnd']; subst.
    destruct (str_eqb k k') eqn:E; simpl.
    + apply str_eqb_eq in E; subst. constructor; assumption.
    + apply str_eqb_neq in E. constructor; [|apply IH; assumption].
      rewrite insert_keys. intros [H|H]; [congruence|contradiction].
Qed.

(** Inserting a key that is not yet present appends it. *)
Lemma insert_fresh {V} (k : str) (v : V) (m : gomap V) :
  ~ In k (map fst m) -> insert k v m = m ++ [(k, v)].
Proof.
  induction m as [|[k' v'] m IH]; simpl; intros Hn; [reflexivity|].
  destruct (str_eqb k k') eqn:E.
  - apply str_eqb_eq in E; subst. tauto.
  - rewrite IH; tauto.
Qed.

Section FoldInsert.
Context {A V : Type} (kf : A -> str) (vf : A -> V).

Lemma lookup_fold_insert_none (l : list A) (acc : gomap V) (k : str) :
  lookup k (fold_left (fun m x => insert (kf x) (vf x) m) l acc) = None
  <-> lookup k acc = None /\ ~ In k (map kf l).
Proof.
  revert acc; induction l as [|x l IH]; intros acc; simpl.
  - tauto.
  - rewrite IH, lookup_insert.
    destruct (str_eqb k (kf x)) eqn:E.
    + apply str_eqb_eq in E; subst. split; [intros [H _]; discriminate|tauto].
    + apply str_eqb_neq in E. split; [intros [H1 H2]; split; [exact H1|]|].
      * intros [H|H]; [congruence|contradiction].
      * intros [H1 H2]; split; [exact H1|tauto].
Qed.

Lemma lookup_fold_insert_some (l : list A) (acc : gomap V) (k : str) (v : V) :
  lookup k (fold_left (fun m x => insert (kf x) (vf x) m) l acc) = Some v ->
  lookup k acc = Some v \/ exists x, In x l /\ kf x = k /\ vf x = v.
Proof.
  revert acc; induction l as [|x l IH]; intros acc; simpl.
  - tauto.
  - intros H; destruct (IH _ H) as [H'|[y [Hy1 Hy2]]].
    + rewrite lookup_insert in H'. destruct (str_eqb k (kf x)) eqn:E.
      * apply str_eqb_eq in E. injection H' as <-. right; exists x.
        split; [left; reflexivity|split; [symmetry; exact E|reflexivity]].
      * left; exact H'.
    + right; exists y; tauto.
Qed.

Lemma fold_insert_nodup (l : list A) (acc : gomap V) :
  NoDup (map fst acc) ->
  NoDup (map fst (fold_left (fun m x => insert (kf x) (vf x) m) l acc)).
Proof.
  revert acc; induction l as [|x l IH]; intros acc Hnd; simpl; [exact Hnd|].
  apply IH, insert_nodup, Hnd.
Qed.

End FoldInsert.

(** ** The strict validator *)

Lemma configuredMap_none (configuredFields : list IssueTypeField) (ident : str) :
  lookup ident (configuredMap configuredFields) = None
  <-> ~ In ident (map (fun f => identifier (Name f)) configuredFields).
Proof.
  unfold configuredMap.
  rewrite (lookup_fold_insert_none (fun f => identifier (Name f)) Key). simpl. tauto.
Qed.

Lemma configuredMap_some (configuredFields : list IssueTypeField) (ident k : str) :
  lookup ident (configuredMap configuredFields) = Some k -> In k (map Key configuredFields).
Proof.
  unfold configuredMap; intros H.
  destruct (lookup_fold_insert_some (fun f => identifier (Name f)) Key _ _ _ _ H)
    as [H'|[x [Hx [_ <-]]]]; [discriminate|].
  apply in_map, Hx.
Qed.

Lemma availableMap_none (available : list IssueTypeField) (k : str) :
  lookup k (availableMap available) = None <-> ~ In k (map Key available).
Proof.
  unfold availableMap.
  rewrite (lookup_fold_insert_none Key (fun f => f)). simpl. tauto.
Qed.

(** The per-name verdict of the loop: [true] when the name is kept. *)
Definition entry_ok (cmap : gomap str) (amap : gomap IssueTypeField) (n : str) : bool :=
  match lookup (ToLower n) cmap with
  | Some k => match lookup k amap with Some _ => true | None => false end
  | None => false
  end.

(** A requested name the strict validator rejects: its lowercased form is
    no configured identifier, or the key it resolves to is not among the
    keys of the available fields. *)
Definition strict_invalid (configuredFields available : list IssueTypeField)
    (n : str) : Prop :=
  ~ In (ToLower n) (map (fun f => identifier (Name f)) configuredFields)
  \/ exists k, lookup (ToLower n) (configuredMap configuredFields) = Some k
              /\ ~ In k (map Key available).

Lemma entry_ok_false (configuredFields available : list IssueTypeField) (n : str) :
  entry_ok (configuredMap configuredFields) (availableMap available) n = false
  <-> strict_invalid configuredFields available n.
Proof.
  unfold entry_ok, strict_invalid.
  destruct (lookup (ToLower n) (configuredMap configuredFields)) as [k|] eqn:E.
  - assert (Hin : In (ToLower n) (map (fun f => identifier (Name f)) configuredFields)).
    { destruct (in_dec (list_eq_dec ascii_dec) (ToLower n)
                  (map (fun f => identifier (Name f)) configuredFields)) as [H|H];
      [exact H|]. apply configuredMap_none in H. congruence. }
    destruct (lookup k (availableMap available)) eqn:E2.
    + split; [discriminate|]. intros [H|[k' [H1 H2]]]; [contradiction|].
      injection H1 as <-. apply availableMap_none in H2. congruence.
    + split; [|reflexivity]. intros _. right. exists k. split; [reflexivity|].
      apply availableMap_none, E2.
  - split; [|reflexivity]. intros _. left. apply configuredMap_none, E.
Qed.

Definition vfold (cmap : gomap str) (amap : gomap IssueTypeField)
    (l : gomap str) (st : vstate) : vstate :=
  fold_left (validate_step cmap amap) l st.

Lemma vfold_invalid_grows cmap amap l st :
  exists suf, invalidFields (vfold cmap amap l st) = invalidFields st ++ suf.
Proof.
  unfold vfold; revert st; induction l as [|[n v] l IH]; intros st; cbn [fold_left].
  - exists []; rewrite app_nil_r; reflexivity.
  - destruct (IH (validate_step cmap amap st (n, v))) as [suf Hs]. rewrite Hs.
    unfold validate_step.
    destruct (lookup (ToLower n) cmap) as [k|]; [destruct (lookup k amap)|]; simpl;
      first [exists suf; reflexivity | exists (n :: suf); rewrite <- app_assoc; reflexivity].
Qed.

Lemma vfold_invalid_in cmap amap l st n :
  In n (map fst l) -> entry_ok cmap amap n = false ->
  In n (invalidFields (vfold cmap amap l st)).
Proof.
  unfold vfold; revert st; induction l as [|[n' v] l IH]; intros st Hin Hbad;
    cbn [fold_left map fst In] in *.
  - contradiction.
  - destruct Hin as [->|Hin]; [|apply IH; assumption].
    destruct (vfold_invalid_grows cmap amap l (validate_step cmap amap st (n, v))) as [suf Hs].
    unfold vfold in Hs; rewrite Hs. apply in_or_app; left.
    unfold entry_ok in Hbad; unfold validate_step.
    destruct (lookup (ToLower n) cmap) as [k|]; [destruct (lookup k amap)|]; simpl;
      [discriminate| |]; apply in_or_app; right; left; reflexivity.
Qed.

Lemma vfold_all_ok cmap amap l st :
  NoDup (map fst l) ->
  (forall n, In n (map fst l) -> entry_ok cmap amap n = true) ->
  (forall n, In n (map fst l) -> ~ In n (map fst (validFields st))) ->
  vfold cmap amap l st =
  {| validFields := validFields st ++ l; invalidFields := invalidFields st;
     invalidFieldKeys := invalidFieldKeys st |}.
Proof.
  unfold vfold; revert st; induction l as [|[n v] l IH]; intros st Hnd Hok Hfresh;
    cbn [fold_left].
  - rewrite app_nil_r; destruct st; reflexivity.
  - simpl in Hnd; inversion Hnd as [|? ? Hnot Hnd']; subst.
    assert (Hn := Hok n (or_introl eq_refl)). unfold entry_ok in Hn.
    unfold validate_step at 2.
    destruct (lookup (ToLower n) cmap) as [k|]; [|discriminate].
    destruct (lookup k amap); [|discriminate].
    rewrite IH; simpl.
    + rewrite insert_fresh by (apply Hfresh; left; reflexivity).
      rewrite <- app_assoc; reflexivity.
    + exact Hnd'.
    + intros m Hm; apply Hok; right; exact Hm.
    + intros m Hm. simpl. rewrite insert_keys. intros [->|H]; [contradiction|].
      apply (Hfresh m); [right; exact Hm|exact H].
Qed.

(** ** Claim C1 *)

(** C1 (strict validation is all or nothing): for a non-empty requested map
    (distinct names), if some requested name is unconfigured (its
    lowercased form matches no configured identifier) or resolves to a key
    absent from the available fields, [ValidateAndFilterCustomFields]
    returns a nil map and a non-nil error; otherwise it returns exactly the
    requested entries and a nil error. *)
Theorem ValidateAndFilter_all_or_nothing
    (requested : gomap str) (available configuredFields : list IssueTypeField)
    (issueTypeName : str) :
  requested <> [] -> NoDup (map fst requested) ->
  ((exists n, In n (map fst requested) /\ strict_invalid configuredFields available n) ->
   exists msg, ValidateAndFilterCustomFields requested available configuredFields issueTypeName
               = (None, Some msg))
  /\ ((forall n, In n (map fst requested) -> ~ strict_invalid configuredFields available n) ->
      ValidateAndFilterCustomFields requested available configuredFields issueTypeName
      = (Some requested, None)).
Proof.
  intros Hne Hnd.
  assert (Hdef : ValidateAndFilterCustomFields requested available configuredFields issueTypeName
    = let st := vfold (configuredMap configuredFields) (availableMap available) requested
                  {| validFields := []; invalidFields := []; invalidFieldKeys := [] |} in
      match invalidFields st with
      | [] => (Some (validFields st), None)
      | _ => (None, Some (Errorf (errMsg issueTypeName (invalidFields st)
                                       (invalidFieldKeys st) (availableCustomFields available))))
      end).
  { destruct requested; [contradiction|reflexivity]. }
  rewrite Hdef; clear Hdef. split.
  - intros [n [Hin Hbad]]. apply entry_ok_false in Hbad.
    pose proof (vfold_invalid_in _ _ _
                  {| validFields := []; invalidFields := []; invalidFieldKeys := [] |} _ Hin Hbad)
      as Hi.
    simpl. destruct (invalidFields _); [contradiction|]. eexists; reflexivity.
  - intros Hgood. rewrite vfold_all_ok; simpl.
    + reflexivity.
    + exact Hnd.
    + intros n Hn. destruct (entry_ok _ _ n) eqn:E; [reflexivity|].
      apply entry_ok_false in E. exfalso; exact (Hgood n Hn E).
    + intros n _ [].
Qed.

Lemma ValidateAndFilter_all_or_nothing_witness :
  let requested := [(lit "story-points", lit "5"); (lit "env", lit "prod")] in
  let available := [field "Story Points" "customfield_1" "number" ""] in
  let configured := [field "Story Points" "customfield_1" "number" "";
                     field "Env" "customfield_2" "option" ""] in
  requested <> [] /\ NoDup (map fst requested) /\
  (exists msg, ValidateAndFilterCustomFields requested available configured (lit "Bug")
               = (None, Some msg)).
Proof.
  intros requested available configured.
  assert (Hne : requested <> []) by discriminate.
  assert (Hnd : NoDup (map fst requested)) by (repeat constructor; simpl; intuition discriminate).
  split; [exact Hne|split; [exact Hnd|]].
  apply (proj1 (ValidateAndFilter_all_or_nothing requested available configured (lit "Bug") Hne Hnd)).
  exists (lit "env"). split; [right; left; reflexivity|].
  right. exists (lit "customfield_2"). split; [reflexivity|].
  simpl. intros [H|[]]. discriminate.
Defined.

(** ** The builder *)

(** The last schema in [configuredFields] whose identifier equals the
    lowercased requested name [n] and whose key is [k]. *)
Fixpoint last_match (n k : str) (configuredFields : list IssueTypeField)
    : option IssueTypeField :=
  match configuredFields with
  | [] => None
  | c :: rest =>
      match last_match n k rest with
      | Some d => Some d
      | None =>
          if str_eqb (identifier (Name c)) (ToLower n) && str_eqb (Key c) k
          then Some c else None
      end
  end.

Lemma build_inner_lookup {float64} (ParseFloat : str -> option float64)
    (n v k : str) (configuredFields : list IssueTypeField) (acc : gomap (cfval float64)) :
  lookup k (fold_left (build_step ParseFloat n v) configuredFields acc)
  = match last_match n k configuredFields with
    | Some c => Some (classify ParseFloat v c)
    | None => lookup k acc
    end.
Proof.
  revert acc; induction configuredFields as [|c rest IH]; intros acc; cbn [fold_left last_match].
  - reflexivity.
  - rewrite IH. destruct (last_match n k rest); [reflexivity|].
    unfold build_step.
    destruct (str_eqb (identifier (Name c)) (ToLower n)); simpl; [|reflexivity].
    rewrite lookup_insert.
    destruct (str_eqb k (Key c)) eqn:E1; destruct (str_eqb (Key c) k) eqn:E2;
      try reflexivity.
    + apply str_eqb_eq in E1; subst; rewrite str_eqb_refl in E2; discriminate.
    + apply str_eqb_eq in E2; subst; rewrite str_eqb_refl in E1; discriminate.
Qed.

(** ** Claim C2 *)

(** C2 does not hold: two configured schemas "Env" and "env " share the
    identifier "env"; for the requested name "env" both keys receive an
    entry, not only the first schema's key. *)
Lemma Build_first_match_counterexample :
  BuildCustomFieldsForTransition parse_digits
    [(lit "env", lit "prod")]
    [field "Env" "customfield_1" "option" ""; field "env " "customfield_2" "option" ""]
  = Some [(lit "customfield_1", CFOption (lit "prod"));
          (lit "customfield_2", CFOption (lit "prod"))].
Proof. vm_compute. reflexivity. Qed.

(** C2 (as amended): for a requested name [n], every configured schema
    whose identifier equals the lowercased [n] contributes an entry under
    its own key; the entry under a key [k] is the classification of the
    value under the last such schema with key [k], and a key of no
    matching schema gets no entry. *)
Theorem Build_all_matching_schemas {float64} (ParseFloat : str -> option float64)
    (n v k : str) (c : IssueTypeField) (configuredFields : list IssueTypeField) :
  option_map (lookup k)
    (BuildCustomFieldsForTransition ParseFloat [(n, v)] (c :: configuredFields))
  = Some (option_map (classify ParseFloat v) (last_match n k (c :: configuredFields))).
Proof.
  unfold BuildCustomFieldsForTransition.
  change (fold_left ?g [(n, v)] []) with (g [] (n, v)). cbv beta iota.
  cbn [option_map]. rewrite build_inner_lookup.
  destruct (last_match n k (c :: configuredFields)); reflexivity.
Qed.

(** ** Claim C3 *)

(** C3 fails on the code: the lenient [ValidateCustomFields] looks up the
    requested name as given, while the strict validator and the builder
    lowercase it first. The requested name "Story-Points" is reported as
    not configured by the lenient check, although its lowercased form is
    the identifier of the configured "Story Points": the strict validator
    keeps it and the builder fills its key. *)
Theorem ValidateCustomFields_mixed_case_divergence :
  let configured := [field "Story Points" "customfield_10001" "number" ""] in
  let requested := [(lit "Story-Points", lit "5")] in
  ValidateCustomFields requested configured = [lit "Story-Points"]
  /\ ToLower (lit "Story-Points") = identifier (lit "Story Points")
  /\ ~ strict_invalid configured configured (lit "Story-Points")
  /\ ValidateAndFilterCustomFields requested configured configured (lit "Task")
     = (Some requested, None)
  /\ BuildCustomFieldsForTransition parse_digits requested configured
     = Some [(lit "customfield_10001", CFNumber 5)].
Proof.
  intros configured requested.
  split; [vm_compute; reflexivity|].
  split; [vm_compute; reflexivity|].
  split; [|split; vm_compute; reflexivity].
  rewrite <- entry_ok_false. vm_compute. discriminate.
Qed.

(** ** The marshaler *)

Lemma insert_by_key_perm {A} (e : str * A) (l : list (str * A)) :
  Permutation (insert_by_key e l) (e :: l).
Proof.
  induction l as [|e' l IH]; simpl; [reflexivity|].
  destruct (str_ltb (fst e) (fst e')); [reflexivity|].
  rewrite IH. apply perm_swap.
Qed.

Lemma sort_by_key_perm {A} (l : list (str * A)) :
  Permutation (sort_by_key l) l.
Proof.
  induction l as [|e l IH]; simpl; [reflexivity|].
  rewrite insert_by_key_perm, IH. reflexivity.
Qed.

(** ** Strings through the JSON round trip *)

Lemma rune_len_le (s : str) : rune_len s <= List.length s.
Proof.
  destruct s as [|b0 rest]; [simpl; lia|]. unfold rune_len. cbv zeta.
  repeat match goal with
         | |- context [if ?c then _ else _] => destruct c
         | |- context [match ?l with [] => _ | _ :: _ => _ end] => destruct l
         end; simpl; lia.
Qed.

Lemma unquote_valid (f : nat) (s : str) :
  List.length s <= f -> valid_utf8 f s = true -> unquote_quoted f s = s.
Proof.
  revert s; induction f as [|f IH]; intros s Hl Hv.
  - destruct s; [reflexivity|simpl in Hl; lia].
  - destruct s as [|b rest]; [reflexivity|]. simpl in Hl.
    cbn [unquote_quoted valid_utf8] in *.
    destruct (nat_of_ascii b <? 128).
    + rewrite IH; [reflexivity|lia|exact Hv].
    + destruct (rune_len (b :: rest)) as [|k] eqn:Ek; [discriminate|].
      pose proof (rune_len_le (b :: rest)) as Hr. rewrite Ek in Hr.
      rewrite IH.
      * apply firstn_skipn.
      * rewrite length_skipn. simpl in *. lia.
      * exact Hv.
Qed.

(** A valid UTF-8 string comes back unchanged from the JSON round trip. *)
Lemma roundtrip_valid (s : str) : ValidString s = true -> roundtrip_string s = s.
Proof. intros H. apply unquote_valid; [apply le_n|exact H]. Qed.

(** ** Claim C4 *)

(** C4 (as amended): for every static fields record, marshaling with a nil
    and with an empty custom-field set gives the same result: the bytes of
    the static fields' object, members in sorted key order, with the names
    as the JSON round trip leaves them. When both names are valid UTF-8
    these are the members [json.Marshal] writes for the static struct
    alone, up to their order. *)
Theorem Marshal_without_custom_fields {V} (EncodeV : V -> json + str)
    (fields : TransitionRequestFields V) :
  MarshalJSON EncodeV (NewTransitionFieldsMarshaler fields None)
  = MarshalJSON EncodeV (NewTransitionFieldsMarshaler fields (Some []))
  /\ MarshalJSON EncodeV (NewTransitionFieldsMarshaler fields None)
     = Some (inl (encode (JObject (sort_by_key (static_members_decoded fields)))))
  /\ ((forall n, Assignee fields = Some n \/ Resolution fields = Some n ->
                 ValidString n = true) ->
      MarshalJSON EncodeV (NewTransitionFieldsMarshaler fields None)
      = Some (inl (encode (JObject (sort_by_key (static_members fields)))))
      /\ Permutation (sort_by_key (static_members fields)) (static_members fields)).
Proof.
  split; [reflexivity|].
  assert (H2 : MarshalJSON EncodeV (NewTransitionFieldsMarshaler fields None)
               = Some (inl (encode (JObject (sort_by_key (static_members_decoded fields))))))
    by (destruct fields as [[a|] [r|] c]; reflexivity).
  split; [exact H2|]. intros Hv. split; [|apply sort_by_key_perm].
  rewrite H2.
  assert (Hd : static_members_decoded fields = static_members fields).
  { destruct fields as [a r c]. unfold static_members_decoded.
    cbn [Assignee Resolution customFields] in *.
    assert (Ha : option_map roundtrip_string a = a).
    { destruct a as [n|]; [|reflexivity]. cbn [option_map]. f_equal.
      apply roundtrip_valid, Hv. left; reflexivity. }
    assert (Hr : option_map roundtrip_string r = r).
    { destruct r as [n|]; [|reflexivity]. cbn [option_map]. f_equal.
      apply roundtrip_valid, Hv. right; reflexivity. }
    rewrite Ha, Hr. reflexivity. }
  rewrite Hd. reflexivity.
Qed.

(** C4 fails for a name that is not valid UTF-8. With the resolution name
    made of the byte FF, the static struct has the single member
    [resolution], so key order plays no part. [json.Marshal] of the
    static struct alone writes the name as the six bytes [\ufffd]; the
    marshaler decodes that escape to U+FFFD and writes its three bytes
    EF BF BD; the two outputs differ. *)
Lemma Marshal_invalid_utf8_counterexample :
  static_members {| Assignee := None; Resolution := Some [ascii_of_nat 255];
                    customFields := @None (gomap str) |}
  = [(lit "resolution", JObject [(lit "name", JString [ascii_of_nat 255])])]
  /\ MarshalJSON (fun s : str => @inl json str (JString s))
       (NewTransitionFieldsMarshaler
          {| Assignee := None; Resolution := Some [ascii_of_nat 255];
             customFields := @None (gomap str) |} None)
     = Some (inl (encode (JObject [(lit "resolution",
                                    JObject [(lit "name", JString replacement_char)])])))
  /\ quote [ascii_of_nat 255] = [ascii_of_nat 34] ++ lit "\ufffd" ++ [ascii_of_nat 34]
  /\ quote replacement_char = [ascii_of_nat 34] ++ replacement_char ++ [ascii_of_nat 34]
  /\ str_eqb (encode (JObject [(lit "resolution",
                                JObject [(lit "name", JString replacement_char)])]))
             (encode (JObject (static_members
                                 {| Assignee := None; Resolution := Some [ascii_of_nat 255];
                                    customFields := @None (gomap str) |})))
     = false.
Proof.
  split; [reflexivity|]. split; [vm_compute; reflexivity|].
  split; [vm_compute; reflexivity|]. split; [vm_compute; reflexivity|].
  vm_compute. reflexivity.
Qed.

(** ** Claim C5 *)

(** C5: for a configured field of data type number, the classification is
    [CFNumber] of the parsed value when [strconv.ParseFloat] succeeds, and
    the raw string otherwise; the builder, which has no error result,
    stores that value under the field's key. *)
Theorem classify_number {float64} (ParseFloat : str -> option float64)
    (n val : str) (configured : IssueTypeField) :
  DataType (Schema configured) = customFieldFormatNumber ->
  identifier (Name configured) = ToLower n ->
  classify ParseFloat val configured
  = match ParseFloat val with
    | Some num => CFNumber num
    | None => CFString val
    end
  /\ BuildCustomFieldsForTransition ParseFloat [(n, val)] [configured]
     = Some [(Key configured,
              match ParseFloat val with
              | Some num => CFNumber num
              | None => CFString val
              end)].
Proof.
  intros Hdt Hid.
  assert (Hc : classify ParseFloat val configured
               = match ParseFloat val with
                 | Some num => CFNumber num
                 | None => CFString val
                 end).
  { unfold classify. rewrite Hdt. destruct (ParseFloat val); reflexivity. }
  split; [exact Hc|].
  unfold BuildCustomFieldsForTransition.
  change (fold_left ?g [(n, val)] []) with (g [] (n, val)). cbv beta iota.
  cbn [fold_left]. unfold build_step. rewrite Hid, str_eqb_refl. simpl.
  rewrite Hc. reflexivity.
Qed.

Lemma classify_number_witness :
  DataType (Schema (field "Story Points" "customfield_10001" "number" ""))
    = customFieldFormatNumber
  /\ identifier (Name (field "Story Points" "customfield_10001" "number" ""))
    = ToLower (lit "story-points")
  /\ BuildCustomFieldsForTransition parse_digits [(lit "story-points", lit "5")]
       [field "Story Points" "customfield_10001" "number" ""]
     = Some [(lit "customfield_10001", CFNumber 5)].
Proof.
  assert (H1 : DataType (Schema (field "Story Points" "customfield_10001" "number" ""))
               = customFieldFormatNumber) by reflexivity.
  assert (H2 : identifier (Name (field "Story Points" "customfield_10001" "number" ""))
               = ToLower (lit "story-points")) by (vm_compute; reflexivity).
  split; [exact H1|split; [exact H2|]].
  exact (proj2 (classify_number parse_digits (lit "story-points") (lit "5") _ H1 H2)).
Defined.

(** ** Splitting and trimming *)

Definition all_space (w : str) : bool := forallb is_space w.

Lemma Split_not_nil (s : str) (sep : ascii) : Split s sep <> [].
Proof.
  destruct s as [|c s]; simpl; [discriminate|].
  destruct (Ascii.eqb c sep); [discriminate|].
  destruct (Split s sep); discriminate.
Qed.

Lemma TrimLeftSpace_app (x y : str) :
  TrimLeftSpace (x ++ y)
  = match TrimLeftSpace x with [] => TrimLeftSpace y | t => t ++ y end.
Proof.
  induction x as [|c x IH]; simpl; [reflexivity|].
  destruct (is_space c); [exact IH|reflexivity].
Qed.

Lemma TrimLeftSpace_all_space (w : str) : all_space w = true -> TrimLeftSpace w = [].
Proof.
  induction w as [|c w IH]; simpl; [reflexivity|].
  intros H; apply andb_prop in H as [H1 H2]. rewrite H1. apply IH, H2.
Qed.

Lemma TrimLeftSpace_space_prefix (w y : str) :
  all_space w = true -> TrimLeftSpace (w ++ y) = TrimLeftSpace y.
Proof.
  intros H. rewrite TrimLeftSpace_app, TrimLeftSpace_all_space by exact H. reflexivity.
Qed.

Lemma TrimLeftSpace_decomp (s : str) :
  exists w, all_space w = true /\ s = w ++ TrimLeftSpace s.
Proof.
  induction s as [|c s IH]; simpl.
  - exists []; split; reflexivity.
  - destruct (is_space c) eqn:E.
    + destruct IH as [w [Hw Hs]]. exists (c :: w). simpl. rewrite E, Hw.
      split; [reflexivity|]. rewrite Hs at 1. reflexivity.
    + exists []; split; reflexivity.
Qed.

Lemma all_space_rev (w : str) : all_space (rev w) = all_space w.
Proof.
  unfold all_space. induction w as [|c w IH]; simpl; [reflexivity|].
  rewrite forallb_app, IH. simpl. rewrite andb_true_r, andb_comm. reflexivity.
Qed.

Lemma TrimRightSpace_decomp (s : str) :
  exists w, all_space w = true /\ s = TrimRightSpace s ++ w.
Proof.
  destruct (TrimLeftSpace_decomp (rev s)) as [w [Hw Hs]].
  exists (rev w). rewrite all_space_rev. split; [exact Hw|].
  unfold TrimRightSpace. rewrite <- rev_app_distr, <- Hs, rev_involutive. reflexivity.
Qed.

Lemma TrimRightSpace_space_suffix (y w : str) :
  all_space w = true -> TrimRightSpace (y ++ w) = TrimRightSpace y.
Proof.
  intros H. unfold TrimRightSpace. rewrite rev_app_distr, TrimLeftSpace_space_prefix.
  - reflexivity.
  - rewrite all_space_rev; exact H.
Qed.

Lemma TrimSpace_space_prefix (w x : str) :
  all_space w = true -> TrimSpace (w ++ x) = TrimSpace x.
Proof. intros H. unfold TrimSpace. rewrite TrimLeftSpace_space_prefix by exact H. reflexivity. Qed.

Lemma TrimSpace_space_suffix (x w : str) :
  all_space w = true -> TrimSpace (x ++ w) = TrimSpace x.
Proof.
  intros H. unfold TrimSpace. rewrite TrimLeftSpace_app.
  destruct (TrimLeftSpace x) as [|c t].
  - rewrite TrimLeftSpace_all_space by exact H. reflexivity.
  - apply TrimRightSpace_space_suffix, H.
Qed.

Lemma TrimSpace_all_space (w : str) : all_space w = true -> TrimSpace w = [].
Proof. intros H. unfold TrimSpace. rewrite TrimLeftSpace_all_space by exact H. reflexivity. Qed.

Lemma Split_space_prefix (w a : str) (sep : ascii) :
  is_space sep = false -> all_space w = true ->
  map TrimSpace (Split (w ++ a) sep) = map TrimSpace (Split a sep).
Proof.
  intros Hsep. induction w as [|c w IH]; intros Hw; [reflexivity|].
  simpl in Hw. apply andb_prop in Hw as [Hc Hw].
  cbn [app Split].
  assert (Hne : Ascii.eqb c sep = false).
  { destruct (Ascii.eqb_spec c sep); [subst; congruence|reflexivity]. }
  rewrite Hne. rewrite <- (IH Hw).
  destruct (Split (w ++ a) sep) as [|p ps] eqn:E; [exfalso; exact (Split_not_nil _ _ E)|].
  cbn [map]. f_equal. apply (TrimSpace_space_prefix [c]). simpl; rewrite Hc; reflexivity.
Qed.

Lemma Split_nosep_suffix (a w : str) (sep : ascii) :
  forallb (fun c => negb (Ascii.eqb c sep)) w = true ->
  exists pre last, Split a sep = pre ++ [last] /\ Split (a ++ w) sep = pre ++ [last ++ w].
Proof.
  intros Hw. induction a as [|c a IH].
  - exists [], []. split; [reflexivity|]. simpl.
    induction w as [|d w IHw]; [reflexivity|].
    simpl in Hw. apply andb_prop in Hw as [Hd Hw]. simpl.
    apply negb_true_iff in Hd. rewrite Hd, (IHw Hw). reflexivity.
  - destruct IH as [pre [last [H1 H2]]]. cbn [app Split].
    rewrite H1, H2. destruct (Ascii.eqb c sep).
    + exists ([] :: pre), last. split; reflexivity.
    + destruct pre as [|q pre].
      * exists [], (c :: last). split; reflexivity.
      * exists ((c :: q) :: pre), last. split; reflexivity.
Qed.

(** Splitting the trimmed value and trimming the pieces is splitting the
    raw value and trimming the pieces. *)
Lemma Split_TrimSpace (val : str) (sep : ascii) :
  is_space sep = false ->
  map TrimSpace (Split (TrimSpace val) sep) = map TrimSpace (Split val sep).
Proof.
  intros Hsep.
  destruct (TrimLeftSpace_decomp val) as [w1 [Hw1 H1]].
  destruct (TrimRightSpace_decomp (TrimLeftSpace val)) as [w2 [Hw2 H2]].
  fold (TrimSpace val) in H2.
  rewrite H1 at 2. rewrite H2. rewrite Split_space_prefix by assumption.
  assert (Hns : forallb (fun c => negb (Ascii.eqb c sep)) w2 = true).
  { apply forallb_forall. intros c Hc. unfold all_space in Hw2.
    rewrite forallb_forall in Hw2. specialize (Hw2 c Hc).
    destruct (Ascii.eqb_spec c sep); [subst; congruence|reflexivity]. }
  destruct (Split_nosep_suffix (TrimSpace val) w2 sep Hns) as [pre [last [E1 E2]]].
  rewrite E1, E2, !map_app. cbn [map]. rewrite TrimSpace_space_suffix by exact Hw2.
  reflexivity.
Qed.

(** ** Claim C6 *)

(** C6: for a configured field of data type array, the classification
    splits the raw value on commas and trims every piece, keeping the
    order: a list of options when the item type is option, a list of
    strings otherwise. The requested [tags="bug, urgent"] with item type
    string gives ["bug"; "urgent"]. *)
Theorem classify_array {float64} (ParseFloat : str -> option float64)
    (val : str) (configured : IssueTypeField) :
  DataType (Schema configured) = customFieldFormatArray ->
  classify ParseFloat val configured
  = (if str_eqb (Items (Schema configured)) customFieldFormatOption
     then CFOptionList (map TrimSpace (Split val ","%char))
     else CFStringList (map TrimSpace (Split val ","%char)))
  /\ BuildCustomFieldsForTransition ParseFloat [(lit "tags", lit "bug, urgent")]
       [field "Tags" "customfield_10003" "array" "string"]
     = Some [(lit "customfield_10003", CFStringList [lit "bug"; lit "urgent"])].
Proof.
  intros Hdt. split; [|reflexivity].
  unfold classify. rewrite Hdt. cbv zeta.
  replace (str_eqb customFieldFormatArray customFieldFormatOption) with false by reflexivity.
  replace (str_eqb customFieldFormatArray customFieldFormatProject) with false by reflexivity.
  rewrite str_eqb_refl.
  rewrite Split_TrimSpace by reflexivity. reflexivity.
Qed.

Lemma classify_array_witness :
  DataType (Schema (field "Tags" "customfield_10003" "array" "option")) = customFieldFormatArray
  /\ classify parse_digits (lit " high , low,") (field "Tags" "customfield_10003" "array" "option")
     = CFOptionList [lit "high"; lit "low"; []].
Proof.
  assert (H : DataType (Schema (field "Tags" "customfield_10003" "array" "option"))
              = customFieldFormatArray) by reflexivity.
  split; [exact H|].
  rewrite (proj1 (classify_array parse_digits (lit " high , low,") _ H)).
  vm_compute. reflexivity.
Defined.

(** ** Claim C9 *)

(** C9: for a configured field of data type array, an empty or
    white-space-only raw value classifies to a one-element list holding the
    empty string (an option with empty value for item type option), never
    to an empty list. *)
Theorem classify_array_blank {float64} (ParseFloat : str -> option float64)
    (val : str) (configured : IssueTypeField) :
  DataType (Schema configured) = customFieldFormatArray ->
  forallb is_space val = true ->
  classify ParseFloat val configured
  = if str_eqb (Items (Schema configured)) customFieldFormatOption
    then CFOptionList [[]]
    else CFStringList [[]].
Proof.
  intros Hdt Hsp.
  unfold classify. rewrite Hdt. cbv zeta.
  replace (str_eqb customFieldFormatArray customFieldFormatOption) with false by reflexivity.
  replace (str_eqb customFieldFormatArray customFieldFormatProject) with false by reflexivity.
  rewrite str_eqb_refl.
  rewrite (TrimSpace_all_space val Hsp). reflexivity.
Qed.

Lemma classify_array_blank_witness :
  DataType (Schema (field "Tags" "customfield_10003" "array" "string")) = customFieldFormatArray
  /\ forallb is_space (lit "   ") = true
  /\ classify parse_digits (lit "   ") (field "Tags" "customfield_10003" "array" "string")
     = CFStringList [[]].
Proof.
  assert (H1 : DataType (Schema (field "Tags" "customfield_10003" "array" "string"))
               = customFieldFormatArray) by reflexivity.
  assert (H2 : forallb is_space (lit "   ") = true) by reflexivity.
  split; [exact H1|split; [exact H2|]].
  exact (classify_array_blank parse_digits (lit "   ") _ H1 H2).
Defined.

(** ** The payload map *)

Lemma existsb_str_eqb (n : str) (l : list str) :
  existsb (str_eqb n) l = true <-> In n l.
Proof.
  rewrite existsb_exists. split.
  - intros [x [Hx E]]. apply str_eqb_eq in E; subst; exact Hx.
  - intros H; exists n; split; [exact H|apply str_eqb_refl].
Qed.

Lemma str_eqb_sym (a b : str) : str_eqb a b = str_eqb b a.
Proof.
  destruct (str_eqb a b) eqn:E; symmetry.
  - apply str_eqb_eq in E; subst; apply str_eqb_refl.
  - apply str_eqb_neq in E. apply str_eqb_neq. congruence.
Qed.

Lemma filter_all_true {A} (p : A -> bool) (l : list A) :
  (forall x, In x l -> p x = true) -> filter p l = l.
Proof.
  induction l as [|x l IH]; simpl; intros H; [reflexivity|].
  rewrite (H x (or_introl eq_refl)), IH; [reflexivity|]. intros y Hy; apply H; right; exact Hy.
Qed.

Lemma filter_filter_and {A} (p q : A -> bool) (l : list A) :
  filter p (filter q l) = filter (fun x => q x && p x) l.
Proof.
  induction l as [|x l IH]; simpl; [reflexivity|].
  destruct (q x); simpl; [destruct (p x); simpl; rewrite IH; reflexivity|exact IH].
Qed.

Lemma perm_filter {A} (p : A -> bool) (l l' : list A) :
  Permutation l l' -> Permutation (filter p l) (filter p l').
Proof.
  induction 1 as [|x l l' _ IH|x y l|l l' l'' _ IH1 _ IH2]; simpl.
  - constructor.
  - destruct (p x); [apply perm_skip|]; exact IH.
  - destruct (p x), (p y); try apply perm_swap; try apply perm_skip; reflexivity.
  - rewrite IH1; exact IH2.
Qed.

Lemma insert_perm {W} (k : str) (v : W) (m : gomap W) :
  NoDup (map fst m) ->
  Permutation (insert k v m) (filter (fun kv => negb (str_eqb (fst kv) k)) m ++ [(k, v)]).
Proof.
  induction m as [|[k' v'] m IH]; simpl; intros Hnd; [reflexivity|].
  inversion Hnd as [|? ? Hnot Hnd']; subst.
  rewrite (str_eqb_sym k' k).
  destruct (str_eqb k k') eqn:E; simpl.
  - apply str_eqb_eq in E; subst k'.
    rewrite filter_all_true.
    + apply Permutation_cons_append.
    + intros [k'' w] Hin. simpl. apply negb_true_iff, str_eqb_neq.
      intros ->. apply Hnot. apply (in_map fst) in Hin. exact Hin.
  - apply perm_skip, IH, Hnd'.
Qed.

Lemma fold_insert_perm {B W} (g : B -> W) (l : list (str * B)) (acc : gomap W) :
  NoDup (map fst acc) -> NoDup (map fst l) ->
  Permutation (fold_left (fun m kv => insert (fst kv) (g (snd kv)) m) l acc)
              (filter (fun kv => negb (existsb (str_eqb (fst kv)) (map fst l))) acc
               ++ map (fun kv => (fst kv, g (snd kv))) l).
Proof.
  revert acc; induction l as [|[k b] l IH]; intros acc Hacc Hl; simpl.
  - rewrite filter_all_true by reflexivity. rewrite app_nil_r. reflexivity.
  - inversion Hl as [|? ? Hnot Hl']; subst.
    rewrite (IH _ (insert_nodup _ _ _ Hacc) Hl').
    rewrite (perm_filter _ _ _ (insert_perm k (g b) acc Hacc)).
    rewrite filter_app, filter_filter_and. cbn [filter fst].
    assert (Hk : existsb (str_eqb k) (map fst l) = false).
    { apply not_true_iff_false. rewrite existsb_str_eqb. exact Hnot. }
    rewrite Hk. cbn [negb]. rewrite <- app_assoc. cbn [app].
    apply Permutation_app_tail. apply Permutation_refl'.
    apply filter_ext. intros [k' w]. simpl. destruct (str_eqb k' k); reflexivity.
Qed.

Lemma map_filter_notin {B C} (h : B -> C) (ks : list str) (l : list (str * B)) :
  map (fun kv => (fst kv, h (snd kv)))
      (filter (fun kv => negb (existsb (str_eqb (fst kv)) ks)) l)
  = filter (fun kv => negb (existsb (str_eqb (fst kv)) ks))
           (map (fun kv => (fst kv, h (snd kv))) l).
Proof.
  induction l as [|[k b] l IH]; simpl; [reflexivity|].
  destruct (negb _); simpl; rewrite IH; reflexivity.
Qed.

Ltac prove_nodup :=
  vm_compute;
  repeat (apply NoDup_cons;
          [let H := fresh in intros H; vm_compute in H;
           repeat match goal with
                  | H' : _ \/ _ |- _ => destruct H' as [H'|H']
                  end;
           first [discriminate | contradiction] |]);
  apply NoDup_nil.

Lemma static_decoded {V} (f : TransitionRequestFields V) :
  exists dm0, decode (JObject (static_members f)) = GMap dm0
              /\ map (fun kv => (fst kv, encode_gval (snd kv))) dm0 = static_members_decoded f
              /\ NoDup (map fst dm0).
Proof.
  destruct f as [[a|] [r|] c]; eexists; (split; [reflexivity|]); (split; [reflexivity|]);
    prove_nodup.
Qed.

(** The map [dm] of the marshaler: the decoded static members whose key no
    custom field uses, followed by the custom fields. *)
Lemma merged_perm {V} (fields : TransitionRequestFields V) (cf : option (gomap V)) :
  NoDup (map fst (custom_entries cf)) ->
  exists dm0 dm,
    decode (JObject (static_members fields)) = GMap dm0
    /\ merged_map (NewTransitionFieldsMarshaler fields cf) = Some dm
    /\ NoDup (map fst dm)
    /\ map (fun kv => (fst kv, encode_gval (snd kv))) dm0 = static_members_decoded fields
    /\ Permutation dm
         (filter (fun kv => negb (existsb (str_eqb (fst kv)) (map fst (custom_entries cf))))
                 (map (fun kv => (fst kv, MDecoded (snd kv))) dm0)
          ++ map (fun kv => (fst kv, MCustom (snd kv))) (custom_entries cf)).
Proof.
  intros Hnd.
  assert (Hs : static_members (NewTransitionFieldsMarshaler fields cf) = static_members fields)
    by reflexivity.
  destruct (static_decoded fields) as [dm0 [Hdec [Henc Hnd0]]].
  set (acc := map (fun kv => (fst kv, @MDecoded V (snd kv))) dm0).
  assert (Hacc : NoDup (map fst acc)) by (unfold acc; rewrite map_map; exact Hnd0).
  exists dm0, (fold_left (fun dm kv => insert (fst kv) (MCustom (snd kv)) dm)
                         (custom_entries cf) acc).
  split; [exact Hdec|].
  split; [unfold merged_map; rewrite Hs, Hdec; reflexivity|].
  split; [apply (fold_insert_nodup fst (fun kv => MCustom (snd kv))), Hacc|].
  split; [exact Henc|].
  apply (fold_insert_perm (@MCustom V) _ acc Hacc Hnd).
Qed.

(** ** The final [json.Marshal(dm)] *)

Section EncodeMembers.
Variable V : Type.
Variable EncodeV : V -> json + str.

Lemma encode_members_inl (l : list (str * mval V)) (ms : list (str * json)) :
  encode_members EncodeV l = inl ms
  <-> Forall2 (fun kx kj => fst kj = fst kx /\ encode_mval EncodeV (snd kx) = inl (snd kj))
              l ms.
Proof.
  revert ms; induction l as [|kx l IH]; intros ms; cbn [encode_members].
  - split; [intros H; injection H as <-; constructor|intros H; inversion H; reflexivity].
  - destruct (encode_mval EncodeV (snd kx)) as [j|e] eqn:Ee.
    + destruct (encode_members EncodeV l) as [js|e] eqn:Em.
      * split.
        -- intros H; injection H as <-. constructor; [split; [reflexivity|exact Ee]|].
           apply IH; reflexivity.
        -- intros H. inversion H as [|x y l0 ms' HR Hr]; subst. destruct HR as [Hk Hj].
           destruct y as [k' j']. cbn [fst snd] in *. subst k'.
           rewrite Ee in Hj. injection Hj as <-.
           apply IH in Hr. injection Hr as <-. reflexivity.
      * split; [discriminate|]. intros H.
        inversion H as [|x y l0 ms' HR Hr]; subst.
        apply IH in Hr. discriminate.
    + split; [discriminate|]. intros H.
      inversion H as [|x y l0 ms' HR Hr]; subst. destruct HR as [_ Hj].
      rewrite Ee in Hj. discriminate.
Qed.

Lemma encode_members_ok (l : list (str * mval V)) :
  (exists ms, encode_members EncodeV l = inl ms)
  <-> Forall (fun kx => exists j, encode_mval EncodeV (snd kx) = inl j) l.
Proof.
  induction l as [|kx l IH]; cbn [encode_members].
  - split; [intros _; constructor|intros _; exists []; reflexivity].
  - rewrite Forall_cons_iff.
    destruct (encode_mval EncodeV (snd kx)) as [j|e] eqn:Ee.
    + destruct (encode_members EncodeV l) as [js|e] eqn:Em.
      * split; [intros _; split; [exists j; reflexivity|apply IH; exists js; reflexivity]|].
        intros _; eexists; reflexivity.
      * split; [intros [ms H]; discriminate|].
        intros [_ H]. apply IH in H as [ms H]. discriminate.
    + split; [intros [ms H]; discriminate|]. intros [[j H] _]. discriminate.
Qed.

Lemma encode_members_inr (l : list (str * mval V)) (e : str) :
  encode_members EncodeV l = inr e ->
  exists kx, In kx l /\ encode_mval EncodeV (snd kx) = inr e.
Proof.
  induction l as [|kx l IH]; cbn [encode_members]; [discriminate|].
  destruct (encode_mval EncodeV (snd kx)) as [j|e'] eqn:Ee.
  - destruct (encode_members EncodeV l) as [js|e'] eqn:Em; [discriminate|].
    intros H; injection H as ->. destruct (IH eq_refl) as [x [Hx Hxe]].
    exists x. split; [right; exact Hx|exact Hxe].
  - intros H; injection H as ->. exists kx. split; [left; reflexivity|exact Ee].
Qed.

(** The members written for the decoded static entries. *)
Lemma Forall2_decoded (l : list (str * gval)) (a : list (str * json)) :
  Forall2 (fun kx kj => fst kj = fst kx /\ encode_mval EncodeV (snd kx) = inl (snd kj))
          (map (fun kv => (fst kv, MDecoded (snd kv))) l) a ->
  a = map (fun kv => (fst kv, encode_gval (snd kv))) l.
Proof.
  revert a; induction l as [|[k g] l IH]; intros a H; cbn [map] in H.
  - inversion H; reflexivity.
  - inversion H as [|x y l0 a' HR Hr]; subst. destruct HR as [Hk Hj].
    destruct y as [k' j]. cbn [fst snd encode_mval] in Hk, Hj. injection Hj as <-.
    subst k'. cbn [map fst snd]. f_equal. apply IH, Hr.
Qed.

(** The members written for the custom fields. *)
Lemma Forall2_custom (l : gomap V) (b : list (str * json)) :
  Forall2 (fun kx kj => fst kj = fst kx /\ encode_mval EncodeV (snd kx) = inl (snd kj))
          (map (fun kv => (fst kv, MCustom (snd kv))) l) b ->
  Forall2 (fun kv kj => fst kj = fst kv /\ EncodeV (snd kv) = inl (snd kj)) l b.
Proof.
  revert b; induction l as [|kv l IH]; intros b H; cbn [map] in H.
  - inversion H; constructor.
  - inversion H as [|x y l0 b' HR Hr]; subst. constructor; [exact HR|apply IH, Hr].
Qed.

End EncodeMembers.

Arguments encode_members_inl {V} EncodeV l ms.
Arguments encode_members_ok {V} EncodeV l.
Arguments encode_members_inr {V} EncodeV l e.
Arguments Forall2_decoded {V} EncodeV l a.
Arguments Forall2_custom {V} EncodeV l b.

Lemma Forall2_in_l {A B} (R : A -> B -> Prop) (l1 : list A) (l2 : list B) (x : A) :
  Forall2 R l1 l2 -> In x l1 -> exists y, In y l2 /\ R x y.
Proof.
  induction 1 as [|a b l1 l2 Hab _ IH]; [contradiction|].
  intros [<-|Hx]; [exists b; split; [left; reflexivity|exact Hab]|].
  destruct (IH Hx) as [z [Hz Hr]]. exists z; split; [right; exact Hz|exact Hr].
Qed.

Lemma Forall2_in_r {A B} (R : A -> B -> Prop) (l1 : list A) (l2 : list B) (y : B) :
  Forall2 R l1 l2 -> In y l2 -> exists x, In x l1 /\ R x y.
Proof.
  induction 1 as [|a b l1 l2 Hab _ IH]; [contradiction|].
  intros [<-|Hy]; [exists a; split; [left; reflexivity|exact Hab]|].
  destruct (IH Hy) as [z [Hz Hr]]. exists z; split; [right; exact Hz|exact Hr].
Qed.

Lemma Forall2_keys {A B} (R : str * A -> str * B -> Prop) (l1 : list (str * A))
    (l2 : list (str * B)) :
  Forall2 (fun x y => fst y = fst x /\ R x y) l1 l2 -> map fst l2 = map fst l1.
Proof.
  induction 1 as [|a b l1 l2 [Hk _] _ IH]; cbn [map]; [reflexivity|]. congruence.
Qed.

(** [MarshalJSON] once the map [dm] is built. *)
Lemma MarshalJSON_merged {V} (EncodeV : V -> json + str) (f : TransitionRequestFields V)
    (dm : gomap (mval V)) :
  merged_map f = Some dm ->
  MarshalJSON EncodeV f
  = Some (match encode_members EncodeV (sort_by_key dm) with
          | inl ms => inl (encode (JObject ms))
          | inr e => inr e
          end).
Proof. intros H. unfold MarshalJSON. rewrite H. reflexivity. Qed.

(** Every entry of the map [dm] can be encoded when every custom value
    can. *)
Lemma merged_encodable {V} (EncodeV : V -> json + str) (dm0 : gomap gval)
    (custom : gomap V) (p : str * mval V -> bool) :
  Forall (fun kx => exists j, encode_mval EncodeV (snd kx) = inl j)
         (filter p (map (fun kv => (fst kv, MDecoded (snd kv))) dm0)
          ++ map (fun kv => (fst kv, MCustom (snd kv))) custom)
  <-> Forall (fun kv => exists j, EncodeV (snd kv) = inl j) custom.
Proof.
  rewrite Forall_app, Forall_map. split; [intros [_ H]; exact H|].
  intros H; split; [|exact H].
  apply Forall_forall. intros [kk x] Hx. apply filter_In in Hx as [Hx _].
  apply in_map_iff in Hx as [[kk' g] [He _]]. cbn [fst snd] in He. injection He as <- <-.
  exists (encode_gval g). reflexivity.
Qed.

(** ** Claim C8 *)

(** C8: every pair [(k, v)] of the custom-field set is written into the
    map decoded from the static fields, overwriting a static member with
    the same key. When the payload is written, it has exactly one member
    [k], holding the encoding of [v]; the payload is written exactly when
    every custom value can be encoded (otherwise the error of
    [json.Marshal] is returned). *)
Theorem Marshal_custom_field_wins {V} (EncodeV : V -> json + str)
    (fields : TransitionRequestFields V) (custom : gomap V) (k : str) (v : V) :
  NoDup (map fst custom) -> In (k, v) custom ->
  (exists dm, merged_map (NewTransitionFieldsMarshaler fields (Some custom)) = Some dm
              /\ lookup k dm = Some (MCustom v))
  /\ (forall out,
        MarshalJSON EncodeV (NewTransitionFieldsMarshaler fields (Some custom)) = Some (inl out) ->
        exists members j,
          out = encode (JObject members) /\ EncodeV v = inl j
          /\ In (k, j) members /\ (forall j', In (k, j') members -> j' = j))
  /\ ((exists out,
         MarshalJSON EncodeV (NewTransitionFieldsMarshaler fields (Some custom)) = Some (inl out))
      <-> Forall (fun kv => exists j, EncodeV (snd kv) = inl j) custom).
Proof.
  intros Hnd Hin.
  destruct (merged_perm fields (Some custom) Hnd) as [dm0 [dm [_ [Hm [Hnd1 [_ Hp]]]]]].
  cbn [custom_entries] in Hp.
  assert (Hin' : In (k, MCustom v) dm).
  { apply (Permutation_in _ (Permutation_sym Hp)). apply in_or_app; right.
    apply (in_map (fun kv => (fst kv, MCustom (snd kv))) custom (k, v) Hin). }
  assert (Hk : lookup k dm = Some (MCustom v)) by (apply lookup_nodup_in; assumption).
  split; [exists dm; split; assumption|]. rewrite (MarshalJSON_merged EncodeV _ dm Hm). split.
  - intros out Hout.
    destruct (encode_members EncodeV (sort_by_key dm)) as [ms|e] eqn:Ee; [|discriminate].
    injection Hout as <-. apply encode_members_inl in Ee.
    destruct (Forall2_in_l _ _ _ (k, MCustom v) Ee) as [[k' j] [Hj [Hk' Hv]]].
    { apply (Permutation_in _ (Permutation_sym (sort_by_key_perm dm))), Hin'. }
    cbn [fst snd encode_mval] in Hk', Hv. subst k'.
    exists ms, j. split; [reflexivity|split; [exact Hv|split; [exact Hj|]]].
    intros j' Hj'.
    destruct (Forall2_in_r _ _ _ (k, j') Ee Hj') as [[k'' x] [Hx [Hk'' Hxe]]].
    cbn [fst snd] in Hk'', Hxe. subst k''.
    apply (Permutation_in _ (sort_by_key_perm dm)) in Hx.
    rewrite (lookup_nodup_in _ _ _ Hnd1 Hx) in Hk. injection Hk as ->.
    cbn [encode_mval] in Hxe. congruence.
  - rewrite <- (merged_encodable EncodeV dm0 custom
                  (fun kv => negb (existsb (str_eqb (fst kv)) (map fst custom)))).
    split.
    + intros [out Hout].
      destruct (encode_members EncodeV (sort_by_key dm)) as [ms|e] eqn:Ee; [|discriminate].
      apply (Permutation_Forall Hp), (Permutation_Forall (sort_by_key_perm dm)).
      apply encode_members_ok. exists ms; exact Ee.
    + intros Hall.
      apply (Permutation_Forall (Permutation_sym Hp)),
            (Permutation_Forall (Permutation_sym (sort_by_key_perm dm))) in Hall.
      apply encode_members_ok in Hall as [ms Hms]. rewrite Hms.
      exists (encode (JObject ms)). reflexivity.
Qed.

Lemma Marshal_custom_field_wins_witness :
  let fields := {| Assignee := Some (lit "john"); Resolution := None;
                   customFields := @None (gomap str) |} in
  let custom := [(lit "assignee", lit "jane")] in
  let E := fun s : str => @inl json str (JString s) in
  NoDup (map fst custom) /\ In (lit "assignee", lit "jane") custom
  /\ (exists out, MarshalJSON E (NewTransitionFieldsMarshaler fields (Some custom))
                  = Some (inl out))
  /\ MarshalJSON E (NewTransitionFieldsMarshaler fields (Some custom))
     = Some (inl (encode (JObject [(lit "assignee", JString (lit "jane"))]))).
Proof.
  intros fields custom E.
  assert (H1 : NoDup (map fst custom)) by prove_nodup.
  assert (H2 : In (lit "assignee", lit "jane") custom) by (left; reflexivity).
  assert (H3 : Forall (fun kv => exists j, E (snd kv) = inl j) custom)
    by (apply Forall_cons; [eexists; reflexivity|apply Forall_nil]).
  destruct (Marshal_custom_field_wins E fields custom _ _ H1 H2) as [_ [_ Hok]].
  split; [exact H1|split; [exact H2|split; [apply (proj2 Hok), H3|]]].
  vm_compute. reflexivity.
Defined.

(** ** Claim C10 *)

Lemma find_issue_type_some (id : str) (its : list (option CreateMeta.IssueType))
    (it : CreateMeta.IssueType) :
  CreateMeta.find_issue_type id its = Some (Some it)
  <-> exists pre post, its = pre ++ Some it :: post
        /\ Forall (fun x => exists y, x = Some y /\ CreateMeta.ID y <> id) pre
        /\ CreateMeta.ID it = id.
Proof.
  induction its as [|[y|] its IH]; cbn [CreateMeta.find_issue_type].
  - split; [discriminate|]. intros [pre [post [H _]]]. destruct pre; discriminate.
  - destruct (str_eqb (CreateMeta.ID y) id) eqn:E; split.
    + intros H; injection H as <-. exists [], its.
      split; [reflexivity|split; [constructor|apply str_eqb_eq, E]].
    + intros [pre [post [H1 [H2 H3]]]]. destruct pre as [|z pre]; cbn [app] in H1.
      * injection H1 as <- _. reflexivity.
      * injection H1 as <- _. apply Forall_inv in H2 as [y' [Hy' Hne]].
        injection Hy' as <-. apply str_eqb_eq in E. contradiction.
    + intros H. apply IH in H as [pre [post [H1 [H2 H3]]]].
      exists (Some y :: pre), post. split; [rewrite H1; reflexivity|split; [|exact H3]].
      constructor; [|exact H2]. exists y. split; [reflexivity|apply str_eqb_neq, E].
    + intros [pre [post [H1 [H2 H3]]]]. destruct pre as [|z pre]; cbn [app] in H1.
      * injection H1 as <- _. rewrite H3, str_eqb_refl in E. discriminate.
      * injection H1 as <- H1. apply IH. exists pre, post.
        split; [exact H1|split; [exact (Forall_inv_tail H2)|exact H3]].
  - split; [discriminate|]. intros [pre [post [H1 [H2 _]]]].
    destruct pre as [|z pre]; cbn [app] in H1; [discriminate|].
    injection H1 as <- _. apply Forall_inv in H2 as [y [Hy _]]. discriminate.
Qed.

Lemma find_issue_type_none (id : str) (its : list (option CreateMeta.IssueType)) :
  CreateMeta.find_issue_type id its = None
  <-> exists pre post, its = pre ++ None :: post
        /\ Forall (fun x => exists y, x = Some y /\ CreateMeta.ID y <> id) pre.
Proof.
  induction its as [|[y|] its IH]; cbn [CreateMeta.find_issue_type].
  - split; [discriminate|]. intros [pre [post [H _]]]. destruct pre; discriminate.
  - destruct (str_eqb (CreateMeta.ID y) id) eqn:E; split.
    + discriminate.
    + intros [pre [post [H1 H2]]]. destruct pre as [|z pre]; cbn [app] in H1; [discriminate|].
      injection H1 as <- _. apply Forall_inv in H2 as [y' [Hy' Hne]].
      injection Hy' as <-. apply str_eqb_eq in E. contradiction.
    + intros H. apply IH in H as [pre [post [H1 H2]]].
      exists (Some y :: pre), post. split; [rewrite H1; reflexivity|].
      constructor; [|exact H2]. exists y. split; [reflexivity|apply str_eqb_neq, E].
    + intros [pre [post [H1 H2]]]. destruct pre as [|z pre]; cbn [app] in H1; [discriminate|].
      injection H1 as <- H1. apply IH. exists pre, post.
      split; [exact H1|exact (Forall_inv_tail H2)].
  - split; [|reflexivity]. intros _. exists [], its. split; [reflexivity|constructor].
Qed.

Lemma find_issue_type_end (id : str) (its : list (option CreateMeta.IssueType)) :
  CreateMeta.find_issue_type id its = Some None
  <-> Forall (fun x => exists y, x = Some y /\ CreateMeta.ID y <> id) its.
Proof.
  induction its as [|[y|] its IH]; cbn [CreateMeta.find_issue_type].
  - split; [intros _; constructor|reflexivity].
  - destruct (str_eqb (CreateMeta.ID y) id) eqn:E; split.
    + discriminate.
    + intros H. apply Forall_inv in H as [y' [Hy' Hne]].
      injection Hy' as <-. apply str_eqb_eq in E. contradiction.
    + intros H. constructor; [|apply IH, H].
      exists y. split; [reflexivity|apply str_eqb_neq, E].
    + intros H. apply IH, (Forall_inv_tail H).
  - split; [discriminate|]. intros H. apply Forall_inv in H as [y [Hy _]]. discriminate.
Qed.

(** C10 (as amended): [GetIssueTypeFields] returns the field values of the
    first issue type with the given ID in the first project, provided no
    nil issue type comes before it; it returns a non-nil error exactly when
    the fetch fails, the response has no project, or every issue type of
    the first project is non-nil with another ID; it panics exactly when
    the scan of the first project's issue types reaches a nil element. The
    issue types of the projects after the first are never examined. *)
Theorem GetIssueTypeFields_spec (meta : CreateMeta.result CreateMeta.Response)
    (project issueTypeID : str) :
  let other := fun x : option CreateMeta.IssueType =>
                 exists it, x = Some it /\ CreateMeta.ID it <> issueTypeID in
  (forall fields,
     CreateMeta.GetIssueTypeFields meta project issueTypeID = Some (CreateMeta.Ok fields)
     <-> exists m p ps pre it post,
           meta = CreateMeta.Ok m /\ CreateMeta.Projects m = p :: ps
           /\ CreateMeta.IssueTypes p = pre ++ Some it :: post
           /\ Forall other pre
           /\ CreateMeta.ID it = issueTypeID
           /\ fields = map snd (CreateMeta.Fields it))
  /\ ((exists msg,
         CreateMeta.GetIssueTypeFields meta project issueTypeID = Some (CreateMeta.Err msg))
      <-> (exists e, meta = CreateMeta.Err e)
          \/ (exists m, meta = CreateMeta.Ok m /\ CreateMeta.Projects m = [])
          \/ (exists m p ps, meta = CreateMeta.Ok m /\ CreateMeta.Projects m = p :: ps
                /\ Forall other (CreateMeta.IssueTypes p)))
  /\ (CreateMeta.GetIssueTypeFields meta project issueTypeID = None
      <-> exists m p ps pre post,
            meta = CreateMeta.Ok m /\ CreateMeta.Projects m = p :: ps
            /\ CreateMeta.IssueTypes p = pre ++ None :: post
            /\ Forall other pre)
  /\ (forall p ps ps',
        CreateMeta.GetIssueTypeFields (CreateMeta.Ok {| CreateMeta.Projects := p :: ps |})
          project issueTypeID
        = CreateMeta.GetIssueTypeFields (CreateMeta.Ok {| CreateMeta.Projects := p :: ps' |})
          project issueTypeID).
Proof.
  cbv zeta.
  split; [|split; [|split; [|intros; reflexivity]]].
  - intros fields. split.
    + destruct meta as [m|e]; unfold CreateMeta.GetIssueTypeFields; [|discriminate].
      destruct (CreateMeta.Projects m) as [|p ps] eqn:Ep; [discriminate|].
      destruct (CreateMeta.find_issue_type issueTypeID (CreateMeta.IssueTypes p))
        as [[it|]|] eqn:Ef; try discriminate.
      intros H; injection H as <-.
      apply find_issue_type_some in Ef as [pre [post [H1 [H2 H3]]]].
      exists m, p, ps, pre, it, post.
      split; [reflexivity|split; [exact Ep|split; [exact H1|split; [exact H2|]]]].
      split; [exact H3|reflexivity].
    + intros (m & p & ps & pre & it & post & -> & Ep & Ei & Hpre & Hid & ->).
      unfold CreateMeta.GetIssueTypeFields. rewrite Ep.
      replace (CreateMeta.find_issue_type issueTypeID (CreateMeta.IssueTypes p))
        with (Some (Some it)); [reflexivity|].
      symmetry. apply find_issue_type_some. exists pre, post.
      split; [exact Ei|split; [exact Hpre|exact Hid]].
  - split.
    + intros [msg Hm]. destruct meta as [m|e]; [|left; exists e; reflexivity].
      right. unfold CreateMeta.GetIssueTypeFields in Hm.
      destruct (CreateMeta.Projects m) as [|p ps] eqn:Ep;
        [left; exists m; split; [reflexivity|exact Ep]|].
      right. exists m, p, ps. split; [reflexivity|split; [exact Ep|]].
      destruct (CreateMeta.find_issue_type issueTypeID (CreateMeta.IssueTypes p))
        as [[it|]|] eqn:Ef; try discriminate.
      apply find_issue_type_end, Ef.
    + intros [[e ->]|[[m [-> Ep]]|[m [p [ps [-> [Ep Hn]]]]]]];
        unfold CreateMeta.GetIssueTypeFields.
      * eexists; reflexivity.
      * rewrite Ep. eexists; reflexivity.
      * rewrite Ep. apply find_issue_type_end in Hn. rewrite Hn. eexists; reflexivity.
  - split.
    + destruct meta as [m|e]; unfold CreateMeta.GetIssueTypeFields; [|discriminate].
      destruct (CreateMeta.Projects m) as [|p ps] eqn:Ep; [discriminate|].
      destruct (CreateMeta.find_issue_type issueTypeID (CreateMeta.IssueTypes p))
        as [[it|]|] eqn:Ef; try discriminate.
      intros _. apply find_issue_type_none in Ef as [pre [post [H1 H2]]].
      exists m, p, ps, pre, post.
      split; [reflexivity|split; [exact Ep|split; [exact H1|exact H2]]].
    + intros (m & p & ps & pre & post & -> & Ep & Ei & Hpre).
      unfold CreateMeta.GetIssueTypeFields. rewrite Ep.
      replace (CreateMeta.find_issue_type issueTypeID (CreateMeta.IssueTypes p))
        with (@None (option CreateMeta.IssueType)); [reflexivity|].
      symmetry. apply find_issue_type_none. exists pre, post. split; assumption.
Qed.

(** C10 fails when the response holds a [null] issue type: with the
    issue types [[null]], no issue type of the first project has the ID,
    yet [GetIssueTypeFields] returns no error; it panics reading
    [issueType.ID] of the nil element. *)
Lemma GetIssueTypeFields_null_entry_counterexample :
  existsb (fun x => match x with
                    | Some it => str_eqb (CreateMeta.ID it) (lit "10001")
                    | None => false
                    end) [None] = false
  /\ CreateMeta.GetIssueTypeFields
       (CreateMeta.Ok {| CreateMeta.Projects :=
                           [{| CreateMeta.Key := lit "PROJ"; CreateMeta.Name := lit "Project";
                               CreateMeta.IssueTypes := [None] |}] |})
       (lit "PROJ") (lit "10001") = None.
Proof. split; reflexivity. Qed.

(** ** The diagnostic of the strict validator *)

Definition substr (x y : str) : Prop := exists a b, y = a ++ x ++ b.

Lemma substr_refl (x : str) : substr x x.
Proof. exists [], []. rewrite app_nil_r. reflexivity. Qed.

Lemma substr_app_l (x y p : str) : substr x y -> substr x (p ++ y).
Proof. intros [a [b ->]]. exists (p ++ a), b. rewrite <- app_assoc. reflexivity. Qed.

Lemma substr_app_r (x y q : str) : substr x y -> substr x (y ++ q).
Proof. intros [a [b ->]]. exists a, (b ++ q). rewrite <- !app_assoc. reflexivity. Qed.

Lemma Join_substr (x : str) (l : list str) (sep : str) : In x l -> substr x (Join l sep).
Proof.
  induction l as [|y l IH]; [intros []|].
  intros [->|Hx].
  - destruct l; [apply substr_refl|]. apply substr_app_r, substr_refl.
  - destruct l as [|z l]; [destruct Hx|]. apply substr_app_l, substr_app_l, IH, Hx.
Qed.

(** Whether a string holds a percent sign, the one byte [fmt] interprets. *)
Definition has_pct (s : str) : bool := existsb (Ascii.eqb "%"%char) s.

Lemma has_pct_false (s : str) : has_pct s = false <-> ~ In "%"%char s.
Proof.
  unfold has_pct. split.
  - intros H Hin. assert (existsb (Ascii.eqb "%"%char) s = true) as H'.
    { apply existsb_exists. exists "%"%char. split; [exact Hin|apply Ascii.eqb_refl]. }
    congruence.
  - intros H. destruct (existsb _ s) eqn:E; [|reflexivity].
    apply existsb_exists in E as [c [Hc Heq]]. apply Ascii.eqb_eq in Heq. subst c.
    contradiction.
Qed.

Lemma has_pct_app (a b : str) : has_pct (a ++ b) = has_pct a || has_pct b.
Proof. apply existsb_app. Qed.

Lemma has_pct_Join (l : list str) (sep : str) :
  has_pct sep = false -> Forall (fun x => has_pct x = false) l -> has_pct (Join l sep) = false.
Proof.
  intros Hs. induction l as [|x l IH]; intros Hl; [reflexivity|].
  inversion Hl as [|? ? Hx Hl']; subst.
  destruct l as [|y l]; [exact Hx|].
  change (has_pct (x ++ sep ++ Join (y :: l) sep) = false).
  rewrite !has_pct_app, Hx, Hs, (IH Hl'). reflexivity.
Qed.

(** [fmt] leaves a format without a percent sign unchanged. *)
Lemma sprintf_noargs_no_pct (fuel : nat) (s : str) :
  has_pct s = false -> sprintf_noargs fuel s = s.
Proof.
  revert fuel; induction s as [|c s IH]; intros fuel H; destruct fuel; try reflexivity.
  cbn [sprintf_noargs]. unfold has_pct in H. cbn [existsb] in H.
  apply orb_false_elim in H as [Hc Hs].
  rewrite Ascii.eqb_sym, Hc. f_equal. apply IH, Hs.
Qed.

Lemma lower_byte_pct (c : ascii) : lower_byte c = "%"%char -> c = "%"%char.
Proof.
  destruct c as [[] [] [] [] [] [] [] []]; vm_compute; intros H;
    first [reflexivity | discriminate H].
Qed.

Lemma TrimLeftSpace_in (c : ascii) (s : str) : In c (TrimLeftSpace s) -> In c s.
Proof.
  induction s as [|d s IH]; simpl; [tauto|].
  destruct (is_space d); [intros H; right; apply IH, H|tauto].
Qed.

Lemma identifier_pct (n : str) : In "%"%char (identifier n) -> In "%"%char n.
Proof.
  unfold identifier, ReplaceAll, ToLower, TrimSpace, TrimRightSpace.
  intros H. apply in_map_iff in H as [c [Hc Hin]].
  destruct (Ascii.eqb c " ") eqn:E; [discriminate|subst c].
  apply in_map_iff in Hin as [d [Hd Hin]]. apply lower_byte_pct in Hd. subst d.
  apply TrimLeftSpace_in. apply in_rev. apply TrimLeftSpace_in. apply in_rev. exact Hin.
Qed.

Lemma vfold_keys_grows cmap amap l st :
  exists suf, invalidFieldKeys (vfold cmap amap l st) = invalidFieldKeys st ++ suf.
Proof.
  unfold vfold; revert st; induction l as [|[n v] l IH]; intros st; cbn [fold_left].
  - exists []; rewrite app_nil_r; reflexivity.
  - destruct (IH (validate_step cmap amap st (n, v))) as [suf Hs]. rewrite Hs.
    unfold validate_step.
    destruct (lookup (ToLower n) cmap) as [k|]; [destruct (lookup k amap)|]; simpl;
      first [exists suf; reflexivity | exists (k :: suf); rewrite <- app_assoc; reflexivity].
Qed.

Lemma vfold_keys_in cmap amap l st n k :
  In n (map fst l) -> lookup (ToLower n) cmap = Some k -> lookup k amap = None ->
  In k (invalidFieldKeys (vfold cmap amap l st)).
Proof.
  unfold vfold; revert st; induction l as [|[n' v] l IH]; intros st Hin Hc Ha;
    cbn [fold_left map fst In] in *.
  - contradiction.
  - destruct Hin as [->|Hin]; [|apply IH; assumption].
    destruct (vfold_keys_grows cmap amap l (validate_step cmap amap st (n, v))) as [suf Hs].
    unfold vfold in Hs; rewrite Hs. apply in_or_app; left.
    unfold validate_step. rewrite Hc, Ha. simpl.
    apply in_or_app; right; left; reflexivity.
Qed.

Lemma vfold_invalid_sub cmap amap l st x :
  In x (invalidFields (vfold cmap amap l st)) -> In x (invalidFields st) \/ In x (map fst l).
Proof.
  unfold vfold; revert st; induction l as [|[n v] l IH]; intros st; cbn [fold_left map fst].
  - tauto.
  - intros H. destruct (IH _ H) as [H'|H']; [|right; right; exact H'].
    unfold validate_step in H'.
    destruct (lookup (ToLower n) cmap) as [k|]; [destruct (lookup k amap)|];
      simpl in H'; try (left; exact H');
      apply in_app_or in H' as [H'|[<-|[]]];
      first [left; exact H' | right; left; reflexivity].
Qed.

Lemma vfold_keys_sub cmap amap l st k :
  In k (invalidFieldKeys (vfold cmap amap l st)) ->
  In k (invalidFieldKeys st) \/ exists n, lookup n cmap = Some k.
Proof.
  unfold vfold; revert st; induction l as [|[n v] l IH]; intros st; cbn [fold_left].
  - tauto.
  - intros H. destruct (IH _ H) as [H'|H']; [|right; exact H'].
    unfold validate_step in H'.
    destruct (lookup (ToLower n) cmap) as [k'|] eqn:E; [destruct (lookup k' amap)|];
      simpl in H'; try (left; exact H').
    apply in_app_or in H' as [H'|[<-|[]]]; [left; exact H'|].
    right; exists (ToLower n); exact E.
Qed.

Lemma errMsg_no_pct (issueTypeName : str) (invalid keys avail : list str) :
  has_pct issueTypeName = false ->
  Forall (fun x => has_pct x = false) invalid ->
  Forall (fun x => has_pct x = false) keys ->
  Forall (fun x => has_pct x = false) avail ->
  has_pct (errMsg issueTypeName invalid keys avail) = false.
Proof.
  intros Hi Hinv Hk Ha. unfold errMsg.
  rewrite !has_pct_app, Hi, (has_pct_Join invalid) by (reflexivity || exact Hinv).
  destruct keys as [|k ks]; destruct avail as [|a av]; cbv iota;
    rewrite ?has_pct_app, ?Hi, ?(has_pct_Join (k :: ks)), ?(has_pct_Join (a :: av))
      by (reflexivity || assumption);
    reflexivity.
Qed.

(** Locating one piece of a concatenation. *)
Ltac find_substr :=
  first [ apply substr_refl
        | apply Join_substr; assumption
        | apply substr_app_r; find_substr
        | apply substr_app_l; find_substr ].

(** ** Claim C7 *)

Fixpoint contains (needle hay : str) : bool :=
  match hay with
  | [] => HasPrefix hay needle
  | _ :: hay' => HasPrefix hay needle || contains needle hay'
  end.

Lemma HasPrefix_app (x b : str) : HasPrefix (x ++ b) x = true.
Proof.
  induction x as [|c x IH]; [reflexivity|]. simpl. rewrite Ascii.eqb_refl. exact IH.
Qed.

Lemma contains_prefix (needle hay : str) :
  HasPrefix hay needle = true -> contains needle hay = true.
Proof. destruct hay; simpl; intros H; [exact H|rewrite H; reflexivity]. Qed.

Lemma contains_complete (needle hay : str) : substr needle hay -> contains needle hay = true.
Proof.
  intros [a [b ->]]. induction a as [|c a IH].
  - cbn [app]. apply contains_prefix, HasPrefix_app.
  - cbn [app contains]. rewrite IH. apply orb_true_r.
Qed.

(** C7 does not hold as stated: the diagnostic lists the identifiers of
    the available custom fields, not their keys. With the unconfigured
    requested name "x" and the available field "Zeta" with key
    "customfield_7", the message does not contain "customfield_7". *)
Lemma ValidateAndFilter_message_keys_counterexample :
  match snd (ValidateAndFilterCustomFields [(lit "x", lit "1")]
               [field "Zeta" "customfield_7" "string" ""] [] (lit "Bug")) with
  | Some msg => ~ substr (lit "customfield_7") msg
  | None => False
  end.
Proof.
  assert (H : option_map (contains (lit "customfield_7"))
                (snd (ValidateAndFilterCustomFields [(lit "x", lit "1")]
                        [field "Zeta" "customfield_7" "string" ""] [] (lit "Bug")))
              = Some false) by (vm_compute; reflexivity).
  revert H.
  destruct (snd (ValidateAndFilterCustomFields [(lit "x", lit "1")]
                   [field "Zeta" "customfield_7" "string" ""] [] (lit "Bug"))) as [msg|];
    [|discriminate].
  intros H Hs. cbn [option_map] in H.
  rewrite (contains_complete _ _ Hs) in H. discriminate.
Qed.

Lemma errMsg_lists (issueTypeName : str) (invalid keys avail : list str) :
  substr issueTypeName (errMsg issueTypeName invalid keys avail)
  /\ (forall x, In x invalid -> substr x (errMsg issueTypeName invalid keys avail))
  /\ (forall k, In k keys -> substr k (errMsg issueTypeName invalid keys avail))
  /\ (forall a, In a avail -> substr a (errMsg issueTypeName invalid keys avail)).
Proof.
  split; [unfold errMsg; find_substr|].
  split; [intros x Hx; unfold errMsg; find_substr|].
  split.
  - intros k Hk. destruct keys as [|k0 ks]; [destruct Hk|].
    unfold errMsg; cbv iota; find_substr.
  - intros a Ha. destruct avail as [|a0 av]; [destruct Ha|].
    unfold errMsg; cbv iota; find_substr.
Qed.

Lemma ValidateAndFilter_nonempty (requested : gomap str)
    (available configuredFields : list IssueTypeField) (issueTypeName : str) :
  requested <> [] ->
  ValidateAndFilterCustomFields requested available configuredFields issueTypeName
  = let st := vfold (configuredMap configuredFields) (availableMap available) requested
                {| validFields := []; invalidFields := []; invalidFieldKeys := [] |} in
    match invalidFields st with
    | [] => (Some (validFields st), None)
    | _ => (None, Some (Errorf (errMsg issueTypeName (invalidFields st)
                                     (invalidFieldKeys st) (availableCustomFields available))))
    end.
Proof. destruct requested; [contradiction|reflexivity]. Qed.

(** C7 (as amended): when strict validation fails and the issue type name,
    the requested names, the configured keys and the available field names
    hold no percent sign (the message is used as the format of
    [fmt.Errorf]), the message names the issue type, lists every invalid
    requested name, lists the key of every requested name that is
    configured but unavailable, and lists the identifier (not the key) of
    every available field whose key starts with "customfield_" and whose
    name is not empty. *)
Theorem ValidateAndFilter_diagnostic
    (requested : gomap str) (available configuredFields : list IssueTypeField)
    (issueTypeName : str) :
  (exists n, In n (map fst requested) /\ strict_invalid configuredFields available n) ->
  has_pct issueTypeName = false ->
  Forall (fun n => has_pct n = false) (map fst requested) ->
  Forall (fun f => has_pct (Key f) = false) configuredFields ->
  Forall (fun f => has_pct (Name f) = false) available ->
  exists msg,
    ValidateAndFilterCustomFields requested available configuredFields issueTypeName
      = (None, Some msg)
    /\ substr issueTypeName msg
    /\ (forall n, In n (map fst requested) -> strict_invalid configuredFields available n ->
                  substr n msg)
    /\ (forall n k, In n (map fst requested) ->
                    lookup (ToLower n) (configuredMap configuredFields) = Some k ->
                    ~ In k (map Key available) -> substr k msg)
    /\ (forall f, In f available -> HasPrefix (Key f) (lit "customfield_") = true ->
                  Name f <> [] -> substr (identifier (Name f)) msg)
    /\ (exists invalid keys,
          Forall (fun n => In n (map fst requested)) invalid
          /\ Forall (fun k => In k (map Key configuredFields)) keys
          /\ msg = errMsg issueTypeName invalid keys
                     (map (fun f => identifier (Name f))
                          (filter (fun f => HasPrefix (Key f) (lit "customfield_")
                                            && negb (str_eqb (Name f) []))
                                  available))).
Proof.
  intros [n0 [Hn0 Hbad0]] Hitn Hreq Hcfg Hav.
  assert (Hne : requested <> []) by (intros ->; destruct Hn0).
  rewrite (ValidateAndFilter_nonempty _ _ _ _ Hne). cbv zeta.
  set (st := vfold (configuredMap configuredFields) (availableMap available) requested
               {| validFields := []; invalidFields := []; invalidFieldKeys := [] |}).
  assert (Hinv : forall n, In n (map fst requested) ->
                 strict_invalid configuredFields available n -> In n (invalidFields st)).
  { intros n Hn Hb. apply vfold_invalid_in; [exact Hn|]. apply entry_ok_false, Hb. }
  assert (Hkeys : forall n k, In n (map fst requested) ->
                  lookup (ToLower n) (configuredMap configuredFields) = Some k ->
                  ~ In k (map Key available) -> In k (invalidFieldKeys st)).
  { intros n k Hn Hc Ha. apply (vfold_keys_in _ _ _ _ n); [exact Hn|exact Hc|].
    apply availableMap_none, Ha. }
  assert (Havail : forall f, In f available -> HasPrefix (Key f) (lit "customfield_") = true ->
                   Name f <> [] -> In (identifier (Name f)) (availableCustomFields available)).
  { intros f Hf Hp Hnm. unfold availableCustomFields.
    apply (in_map (fun field => identifier (Name field))). apply filter_In.
    split; [exact Hf|]. rewrite Hp. simpl.
    destruct (str_eqb (Name f) []) eqn:E; [apply str_eqb_eq in E; contradiction|reflexivity]. }
  assert (Hpct : has_pct (errMsg issueTypeName (invalidFields st) (invalidFieldKeys st)
                            (availableCustomFields available)) = false).
  { apply errMsg_no_pct; [exact Hitn| | |]; apply Forall_forall.
    - intros x Hx. apply vfold_invalid_sub in Hx as [[]|Hx].
      rewrite Forall_forall in Hreq. apply Hreq, Hx.
    - intros k Hk. apply vfold_keys_sub in Hk as [[]|[n Hn]].
      apply configuredMap_some in Hn. apply in_map_iff in Hn as [f [<- Hf]].
      rewrite Forall_forall in Hcfg. apply Hcfg, Hf.
    - intros x Hx. unfold availableCustomFields in Hx.
      apply in_map_iff in Hx as [f [<- Hf]]. apply filter_In in Hf as [Hf _].
      rewrite Forall_forall in Hav. specialize (Hav f Hf).
      apply has_pct_false. apply has_pct_false in Hav.
      intros H; apply Hav, identifier_pct, H. }
  destruct (invalidFields st) as [|i is] eqn:Ei.
  { exfalso. apply (Hinv n0 Hn0 Hbad0). }
  exists (errMsg issueTypeName (i :: is) (invalidFieldKeys st) (availableCustomFields available)).
  unfold Errorf. rewrite sprintf_noargs_no_pct by exact Hpct.
  destruct (errMsg_lists issueTypeName (i :: is) (invalidFieldKeys st)
              (availableCustomFields available)) as [L1 [L2 [L3 L4]]].
  split; [reflexivity|split; [exact L1|split; [|split; [|split]]]].
  - intros n Hn Hb. apply L2. apply Hinv; assumption.
  - intros n k Hn Hc Ha. apply L3. apply (Hkeys n); assumption.
  - intros f Hf Hp Hnm. apply L4. apply Havail; assumption.
  - exists (i :: is), (invalidFieldKeys st). split; [|split; [|reflexivity]].
    + apply Forall_forall. intros x Hx. rewrite <- Ei in Hx.
      apply vfold_invalid_sub in Hx as [[]|Hx]. exact Hx.
    + apply Forall_forall. intros k Hk.
      apply vfold_keys_sub in Hk as [[]|[n Hn]]. apply configuredMap_some in Hn. exact Hn.
Qed.

Lemma ValidateAndFilter_diagnostic_witness :
  let requested := [(lit "story-points", lit "5"); (lit "env", lit "prod")] in
  let available := [field "Story Points" "customfield_1" "number" "";
                    field "Sprint" "customfield_3" "array" "string"] in
  let configured := [field "Story Points" "customfield_1" "number" "";
                     field "Env" "customfield_2" "option" ""] in
  exists msg,
    ValidateAndFilterCustomFields requested available configured (lit "Bug") = (None, Some msg)
    /\ substr (lit "customfield_2") msg /\ substr (lit "sprint") msg.
Proof.
  intros requested available configured.
  destruct (ValidateAndFilter_diagnostic requested available configured (lit "Bug"))
    as [msg [H1 [_ [_ [H4 [H5 _]]]]]].
  - exists (lit "env"). split; [right; left; reflexivity|].
    right. exists (lit "customfield_2"). split; [reflexivity|].
    simpl. intros [H|[H|[]]]; discriminate.
  - reflexivity.
  - repeat constructor.
  - repeat constructor.
  - repeat constructor.
  - exists msg. split; [exact H1|split].
    + apply (H4 (lit "env")); [right; left; reflexivity|reflexivity|].
      simpl. intros [H|[H|[]]]; discriminate.
    + apply (H5 (field "Sprint" "customfield_3" "array" "string")).
      * right; left; reflexivity.
      * reflexivity.
      * discriminate.
Defined.

(** * Further properties of the code *)

(** ** The lenient check *)

Lemma lenient_fieldsMap_none (configuredFields : list IssueTypeField) (n : str) :
  lookup n (lenient_fieldsMap configuredFields) = None
  <-> ~ In n (map (fun f => identifier (Name f)) configuredFields).
Proof.
  unfold lenient_fieldsMap.
  rewrite (lookup_fold_insert_none (fun f => identifier (Name f)) Name). simpl. tauto.
Qed.

Lemma lenient_fold (fm : gomap str) (idents : list str) (l : gomap str) (acc : list str) :
  (forall n, lookup n fm = None <-> ~ In n idents) ->
  fold_left (fun invalid '(key, _) =>
               match lookup key fm with
               | Some _ => invalid
               | None => invalid ++ [key]
               end) l acc
  = acc ++ filter (fun n => negb (existsb (str_eqb n) idents)) (map fst l).
Proof.
  intros Hfm. revert acc.
  induction l as [|[n v] l IH]; intros acc; cbn [fold_left map fst filter].
  - rewrite app_nil_r; reflexivity.
  - rewrite IH.
    destruct (lookup n fm) eqn:E; destruct (existsb (str_eqb n) idents) eqn:E2; simpl.
    + reflexivity.
    + exfalso. apply not_true_iff_false in E2. rewrite existsb_str_eqb in E2.
      apply Hfm in E2. congruence.
    + exfalso. apply existsb_str_eqb in E2. apply Hfm in E. contradiction.
    + rewrite <- app_assoc; reflexivity.
Qed.

Lemma ValidateCustomFields_eq (fields : gomap str) (configuredFields : list IssueTypeField) :
  ValidateCustomFields fields configuredFields
  = filter (fun n => negb (existsb (str_eqb n)
                             (map (fun f => identifier (Name f)) configuredFields)))
           (map fst fields).
Proof.
  unfold ValidateCustomFields.
  destruct fields as [|kv fields']; [reflexivity|]. cbv zeta.
  rewrite (lenient_fold _ (map (fun f => identifier (Name f)) configuredFields));
    [reflexivity|].
  apply lenient_fieldsMap_none.
Qed.

(** [ValidateCustomFields] reports, in the iteration order of the request,
    exactly the requested names that are not, byte for byte, the identifier
    of a configured schema; each name is reported at most once. *)
Theorem ValidateCustomFields_reports (fields : gomap str)
    (configuredFields : list IssueTypeField) :
  ValidateCustomFields fields configuredFields
  = filter (fun n => negb (existsb (str_eqb n)
                             (map (fun f => identifier (Name f)) configuredFields)))
           (map fst fields)
  /\ (NoDup (map fst fields) -> NoDup (ValidateCustomFields fields configuredFields)).
Proof.
  rewrite ValidateCustomFields_eq. split; [reflexivity|].
  intros Hnd. apply NoDup_filter, Hnd.
Qed.

(** ** Identifiers *)

Lemma identifier_no_space (n : str) : ~ In " "%char (identifier n).
Proof.
  unfold identifier, ReplaceAll. intros H.
  apply in_map_iff in H as [c [Hc _]].
  destruct (Ascii.eqb c " ") eqn:E; [discriminate|].
  subst c. rewrite Ascii.eqb_refl in E. discriminate.
Qed.

Lemma ToLower_space (n : str) : In " "%char n -> In " "%char (ToLower n).
Proof.
  intros H. unfold ToLower.
  change " "%char with (lower_byte " "%char) at 1. apply in_map, H.
Qed.

Lemma identifier_ne_space_name (name n : str) :
  In " "%char n -> identifier name <> ToLower n.
Proof.
  intros Hn Heq. apply (identifier_no_space name). rewrite Heq. apply ToLower_space, Hn.
Qed.

Lemma lower_byte_idem (c : ascii) : lower_byte (lower_byte c) = lower_byte c.
Proof. destruct c as [[] [] [] [] [] [] [] []]; vm_compute; reflexivity. Qed.

Lemma ToLower_identifier (n : str) : ToLower (identifier n) = identifier n.
Proof.
  unfold identifier, ReplaceAll, ToLower. rewrite !map_map. apply map_ext.
  intros c. destruct (Ascii.eqb (lower_byte c) " ") eqn:E.
  - reflexivity.
  - apply lower_byte_idem.
Qed.

(** ** Keys written by the builder *)

Lemma build_inner_keys {float64} (ParseFloat : str -> option float64)
    (n v : str) (configuredFields : list IssueTypeField) (acc : gomap (cfval float64)) (x : str) :
  In x (map fst (fold_left (build_step ParseFloat n v) configuredFields acc))
  <-> In x (map fst acc)
      \/ exists c, In c configuredFields /\ identifier (Name c) = ToLower n /\ Key c = x.
Proof.
  revert acc; induction configuredFields as [|c cfs IH]; intros acc; cbn [fold_left].
  - split; [tauto|]. intros [H|[c [[] _]]]; exact H.
  - rewrite IH. unfold build_step.
    destruct (str_eqb (identifier (Name c)) (ToLower n)) eqn:E; cbn [negb].
    + apply str_eqb_eq in E. rewrite insert_keys. split.
      * intros [[->|H]|[c' [H1 H2]]].
        -- right; exists c; split; [left; reflexivity|split; [exact E|reflexivity]].
        -- left; exact H.
        -- right; exists c'; split; [right; exact H1|exact H2].
      * intros [H|[c' [[<-|H1] [H2 H3]]]].
        -- left; right; exact H.
        -- left; left; symmetry; exact H3.
        -- right; exists c'; split; [exact H1|split; assumption].
    + apply str_eqb_neq in E. split.
      * intros [H|[c' [H1 H2]]]; [left; exact H|right; exists c'; split; [right; exact H1|exact H2]].
      * intros [H|[c' [[<-|H1] [H2 H3]]]]; [left; exact H|contradiction|].
        right; exists c'; split; [exact H1|split; assumption].
Qed.

Lemma build_outer_keys {float64} (ParseFloat : str -> option float64)
    (configuredFields : list IssueTypeField) (l : gomap str) (acc : gomap (cfval float64)) (x : str) :
  In x (map fst (fold_left
                   (fun cf '(key, val) => fold_left (build_step ParseFloat key val) configuredFields cf)
                   l acc))
  <-> In x (map fst acc)
      \/ exists n v c, In (n, v) l /\ In c configuredFields
                       /\ identifier (Name c) = ToLower n /\ Key c = x.
Proof.
  revert acc; induction l as [|[n v] l IH]; intros acc; cbn [fold_left].
  - split; [tauto|]. intros [H|[n [v [c [[] _]]]]]; exact H.
  - rewrite IH, build_inner_keys. split.
    + intros [[H|[c [H1 H2]]]|[n' [v' [c [H1 H2]]]]].
      * left; exact H.
      * right; exists n, v, c; split; [left; reflexivity|split; [exact H1|exact H2]].
      * right; exists n', v', c; split; [right; exact H1|exact H2].
    + intros [H|[n' [v' [c [[E|H1] H2]]]]].
      * left; left; exact H.
      * injection E as <- <-. left; right; exists c; exact H2.
      * right; exists n', v', c; split; [exact H1|exact H2].
Qed.

Lemma build_nodup {float64} (ParseFloat : str -> option float64)
    (configuredFields : list IssueTypeField) (l : gomap str) (acc : gomap (cfval float64)) :
  NoDup (map fst acc) ->
  NoDup (map fst (fold_left
                   (fun cf '(key, val) => fold_left (build_step ParseFloat key val) configuredFields cf)
                   l acc)).
Proof.
  revert acc; induction l as [|[n v] l IH]; intros acc Hnd; cbn [fold_left]; [exact Hnd|].
  apply IH. clear IH. revert acc Hnd.
  induction configuredFields as [|c cfs IH]; intros acc Hnd; cbn [fold_left]; [exact Hnd|].
  apply IH. unfold build_step. destruct (negb _); [exact Hnd|]. apply insert_nodup, Hnd.
Qed.

Lemma Build_some {float64} (ParseFloat : str -> option float64)
    (fields : gomap str) (configuredFields : list IssueTypeField) (m : gomap (cfval float64)) :
  BuildCustomFieldsForTransition ParseFloat fields configuredFields = Some m ->
  m = fold_left (fun cf '(key, val) => fold_left (build_step ParseFloat key val) configuredFields cf)
                fields [].
Proof.
  unfold BuildCustomFieldsForTransition.
  destruct fields as [|kv fs]; [discriminate|].
  destruct configuredFields as [|c cfs]; [discriminate|].
  intros H; injection H as <-. reflexivity.
Qed.

Lemma Build_some_iff {float64} (ParseFloat : str -> option float64)
    (fields : gomap str) (configuredFields : list IssueTypeField) :
  fields <> [] -> configuredFields <> [] ->
  BuildCustomFieldsForTransition ParseFloat fields configuredFields
  = Some (fold_left (fun cf '(key, val) => fold_left (build_step ParseFloat key val) configuredFields cf)
                    fields []).
Proof.
  intros H1 H2. unfold BuildCustomFieldsForTransition.
  destruct fields as [|kv fs]; [contradiction|].
  destruct configuredFields as [|c cfs]; [contradiction|]. reflexivity.
Qed.

(** [BuildCustomFieldsForTransition] writes exactly the keys of the
    configured schemas whose identifier is the lowercased form of some
    requested name, each key once; a request that matches no schema gives
    an empty, non-nil set. *)
Theorem Build_keys {float64} (ParseFloat : str -> option float64)
    (fields : gomap str) (configuredFields : list IssueTypeField) (m : gomap (cfval float64)) :
  BuildCustomFieldsForTransition ParseFloat fields configuredFields = Some m ->
  NoDup (map fst m)
  /\ forall k, In k (map fst m)
               <-> exists n v c, In (n, v) fields /\ In c configuredFields
                                 /\ identifier (Name c) = ToLower n /\ Key c = k.
Proof.
  intros H. apply Build_some in H. subst m. split.
  - apply build_nodup. constructor.
  - intros k. rewrite build_outer_keys. cbn [map In]. tauto.
Qed.

Lemma Build_keys_witness :
  BuildCustomFieldsForTransition parse_digits
    [(lit "story-points", lit "5"); (lit "Tags", lit "a, b"); (lit "sprint", lit "3")]
    [field "Story Points" "customfield_1" "number" ""; field "Tags" "customfield_3" "array" ""]
  = Some [(lit "customfield_1", CFNumber 5); (lit "customfield_3", CFStringList [lit "a"; lit "b"])]
  /\ NoDup [lit "customfield_1"; lit "customfield_3"].
Proof.
  assert (H : BuildCustomFieldsForTransition parse_digits
    [(lit "story-points", lit "5"); (lit "Tags", lit "a, b"); (lit "sprint", lit "3")]
    [field "Story Points" "customfield_1" "number" ""; field "Tags" "customfield_3" "array" ""]
    = Some [(lit "customfield_1", CFNumber 5); (lit "customfield_3", CFStringList [lit "a"; lit "b"])])
    by (vm_compute; reflexivity).
  split; [exact H|].
  exact (proj1 (Build_keys parse_digits _ _ _ H)).
Defined.

(** A requested name containing a space byte is never matched: the
    identifiers replace every space by '-', while the request is only
    lowercased. The builder writes nothing for it, the strict validator
    fails on any request containing it, and the lenient check reports it. *)
Theorem space_name_never_matches {float64} (ParseFloat : str -> option float64)
    (n v : str) (fields requested : gomap str)
    (available configuredFields : list IssueTypeField) (issueTypeName : str) :
  In " "%char n ->
  (forall m, BuildCustomFieldsForTransition ParseFloat [(n, v)] configuredFields = Some m ->
             m = [])
  /\ (In n (map fst requested) ->
      exists msg, ValidateAndFilterCustomFields requested available configuredFields issueTypeName
                  = (None, Some msg))
  /\ (In n (map fst fields) -> In n (ValidateCustomFields fields configuredFields)).
Proof.
  intros Hsp.
  assert (Hnot : ~ In (ToLower n) (map (fun f => identifier (Name f)) configuredFields)).
  { intros H. apply in_map_iff in H as [c [Hc _]].
    exact (identifier_ne_space_name (Name c) n Hsp Hc). }
  split; [|split].
  - intros m Hm. destruct (Build_keys ParseFloat _ _ _ Hm) as [_ Hk].
    destruct m as [|[k x] m]; [reflexivity|]. exfalso.
    destruct (proj1 (Hk k) (or_introl eq_refl)) as [n' [v' [c [[E|[]] [Hc [Hid _]]]]]].
    injection E as <- <-. apply Hnot. rewrite <- Hid. apply (in_map (fun f => identifier (Name f))), Hc.
  - intros Hin. assert (Hne : requested <> []) by (intros ->; destruct Hin).
    rewrite (ValidateAndFilter_nonempty _ _ _ _ Hne). cbv zeta.
    assert (Hbad : entry_ok (configuredMap configuredFields) (availableMap available) n = false)
      by (apply entry_ok_false; left; exact Hnot).
    pose proof (vfold_invalid_in _ _ _
                  {| validFields := []; invalidFields := []; invalidFieldKeys := [] |} _ Hin Hbad)
      as Hi.
    unfold vfold in Hi. destruct (invalidFields _); [destruct Hi|]. eexists; reflexivity.
  - intros Hin. rewrite ValidateCustomFields_eq. apply filter_In. split; [exact Hin|].
    destruct (existsb _ _) eqn:E; [|reflexivity].
    exfalso. apply existsb_str_eqb in E. apply in_map_iff in E as [c [Hc _]].
    apply (identifier_no_space (Name c)). rewrite Hc. exact Hsp.
Qed.

Lemma space_name_never_matches_witness :
  let cfs := [field "Story Points" "customfield_1" "number" ""] in
  let req := [(lit "story points", lit "5")] in
  In " "%char (lit "story points")
  /\ (exists msg, ValidateAndFilterCustomFields req cfs cfs (lit "Bug") = (None, Some msg))
  /\ In (lit "story points") (ValidateCustomFields req cfs).
Proof.
  intros cfs req.
  assert (Hsp : In " "%char (lit "story points")) by (simpl; tauto).
  destruct (space_name_never_matches parse_digits (lit "story points") (lit "5") req req cfs cfs
              (lit "Bug") Hsp) as [_ [H2 H3]].
  split; [exact Hsp|split].
  - apply H2. left; reflexivity.
  - apply H3. left; reflexivity.
Defined.

(** A configured schema's identifier, used as a requested name, is
    matched everywhere: the lenient check does not report it, the strict
    validator resolves it to a configured key, and the builder writes an
    entry under the schema's key. *)
Theorem identifier_request_matches {float64} (ParseFloat : str -> option float64)
    (configuredFields : list IssueTypeField) (c : IssueTypeField) (v : str) :
  In c configuredFields ->
  ValidateCustomFields [(identifier (Name c), v)] configuredFields = []
  /\ (exists k, lookup (ToLower (identifier (Name c))) (configuredMap configuredFields) = Some k)
  /\ (exists m, BuildCustomFieldsForTransition ParseFloat [(identifier (Name c), v)] configuredFields
                = Some m
                /\ In (Key c) (map fst m)).
Proof.
  intros Hc.
  assert (Hin : In (identifier (Name c)) (map (fun f => identifier (Name f)) configuredFields))
    by (apply (in_map (fun f => identifier (Name f))), Hc).
  split; [|split].
  - rewrite ValidateCustomFields_eq. cbn [map fst filter].
    apply existsb_str_eqb in Hin. rewrite Hin. reflexivity.
  - rewrite ToLower_identifier.
    destruct (lookup (identifier (Name c)) (configuredMap configuredFields)) as [k|] eqn:E.
    + exists k; reflexivity.
    + apply configuredMap_none in E. contradiction.
  - assert (Hne : configuredFields <> []) by (intros ->; destruct Hc).
    assert (Hf : [(identifier (Name c), v)] <> []) by discriminate.
    rewrite (Build_some_iff ParseFloat _ _ Hf Hne).
    eexists; split; [reflexivity|].
    apply build_outer_keys. right. exists (identifier (Name c)), v, c.
    split; [left; reflexivity|split; [exact Hc|split; [|reflexivity]]].
    symmetry; apply ToLower_identifier.
Qed.

Lemma identifier_request_matches_witness :
  let cfs := [field "Story Points" "customfield_1" "number" "";
              field " Fix  Version " "customfield_2" "" ""] in
  In (field " Fix  Version " "customfield_2" "" "") cfs
  /\ ValidateCustomFields [(lit "fix--version", lit "1.0")] cfs = []
  /\ BuildCustomFieldsForTransition parse_digits [(lit "fix--version", lit "1.0")] cfs
     = Some [(lit "customfield_2", CFString (lit "1.0"))].
Proof.
  intros cfs.
  assert (Hc : In (field " Fix  Version " "customfield_2" "" "") cfs) by (right; left; reflexivity).
  destruct (identifier_request_matches parse_digits cfs _ (lit "1.0") Hc) as [H1 _].
  split; [exact Hc|split].
  - exact H1.
  - vm_compute; reflexivity.
Defined.

(** When the strict validator accepts a request, every requested name
    resolves to a configured schema whose key is available, and the
    builder, given the same request, writes an entry under that key:
    nothing the validator accepted is dropped by the builder. *)
Theorem validated_request_is_built {float64} (ParseFloat : str -> option float64)
    (requested : gomap str) (available configuredFields : list IssueTypeField)
    (issueTypeName : str) (valid : gomap str) :
  ValidateAndFilterCustomFields requested available configuredFields issueTypeName
    = (Some valid, None) ->
  forall n v, In (n, v) requested ->
  exists c, In c configuredFields /\ identifier (Name c) = ToLower n
            /\ lookup (ToLower n) (configuredMap configuredFields) = Some (Key c)
            /\ In (Key c) (map Key available)
            /\ exists m, BuildCustomFieldsForTransition ParseFloat requested configuredFields = Some m
                         /\ In (Key c) (map fst m).
Proof.
  intros Hv n v Hin.
  assert (Hne : requested <> []) by (intros ->; destruct Hin).
  assert (Hok : entry_ok (configuredMap configuredFields) (availableMap available) n = true).
  { destruct (entry_ok _ _ n) eqn:E; [reflexivity|].
    pose proof (vfold_invalid_in _ _ _
                  {| validFields := []; invalidFields := []; invalidFieldKeys := [] |} _
                  (in_map fst _ _ Hin) E) as Hi.
    rewrite (ValidateAndFilter_nonempty _ _ _ _ Hne) in Hv. cbv zeta in Hv.
    unfold vfold in Hi. destruct (invalidFields _); [destruct Hi|discriminate]. }
  unfold entry_ok in Hok.
  destruct (lookup (ToLower n) (configuredMap configuredFields)) as [k|] eqn:Ek; [|discriminate].
  destruct (lookup k (availableMap available)) eqn:Ea; [|discriminate].
  pose proof Ek as Ek'. unfold configuredMap in Ek'.
  destruct (lookup_fold_insert_some (fun f => identifier (Name f)) Key _ _ _ _ Ek')
    as [H|[c [Hc [Hid Hk]]]]; [discriminate|].
  subst k. exists c. split; [exact Hc|split; [exact Hid|split; [reflexivity|split]]].
  - destruct (in_dec (list_eq_dec ascii_dec) (Key c) (map Key available)) as [H|H]; [exact H|].
    apply availableMap_none in H. congruence.
  - assert (Hne2 : configuredFields <> []) by (intros ->; destruct Hc).
    rewrite (Build_some_iff ParseFloat _ _ Hne Hne2). eexists; split; [reflexivity|].
    apply build_outer_keys. right. exists n, v, c. repeat split; assumption.
Qed.

Lemma validated_request_is_built_witness :
  let cfs := [field "Story Points" "customfield_1" "number" "";
              field "Env" "customfield_2" "option" ""] in
  let req := [(lit "Story-Points", lit "5"); (lit "env", lit "prod")] in
  ValidateAndFilterCustomFields req cfs cfs (lit "Bug") = (Some req, None)
  /\ exists c m, In c cfs /\ BuildCustomFieldsForTransition parse_digits req cfs = Some m
                 /\ In (Key c) (map fst m).
Proof.
  intros cfs req.
  assert (Hv : ValidateAndFilterCustomFields req cfs cfs (lit "Bug") = (Some req, None))
    by (vm_compute; reflexivity).
  split; [exact Hv|].
  destruct (validated_request_is_built parse_digits req cfs cfs (lit "Bug") req Hv
              (lit "env") (lit "prod") (or_intror (or_introl eq_refl)))
    as [c [Hc [_ [_ [_ [m [Hm Hk]]]]]]].
  exists c, m. split; [exact Hc|split; assumption].
Defined.

(** ** The builder and the iteration order of the request *)

Lemma last_match_some (n k : str) (configuredFields : list IssueTypeField) (c : IssueTypeField) :
  last_match n k configuredFields = Some c ->
  In c configuredFields /\ identifier (Name c) = ToLower n /\ Key c = k.
Proof.
  induction configuredFields as [|d cfs IH]; cbn [last_match]; [discriminate|].
  destruct (last_match n k cfs) as [d'|] eqn:E.
  - intros H; injection H as <-. destruct (IH eq_refl) as [H1 H2].
    split; [right; exact H1|exact H2].
  - destruct (str_eqb (identifier (Name d)) (ToLower n)) eqn:E1;
      destruct (str_eqb (Key d) k) eqn:E2; cbn [andb]; try discriminate.
    intros H; injection H as <-. apply str_eqb_eq in E1, E2.
    split; [left; reflexivity|split; assumption].
Qed.

Lemma nodup_key_unique (l : list IssueTypeField) (c1 c2 : IssueTypeField) :
  NoDup (map Key l) -> In c1 l -> In c2 l -> Key c1 = Key c2 -> c1 = c2.
Proof.
  induction l as [|d l IH]; cbn [map In]; [tauto|].
  intros Hnd H1 H2 Hk. inversion Hnd as [|? ? Hnot Hnd']; subst.
  destruct H1 as [<-|H1]; destruct H2 as [<-|H2]; try reflexivity.
  - exfalso; apply Hnot. rewrite Hk. apply in_map, H2.
  - exfalso; apply Hnot. rewrite <- Hk. apply in_map, H1.
  - apply IH; assumption.
Qed.

Section BuildOrder.
Context {float64 : Type} (ParseFloat : str -> option float64)
        (configuredFields : list IssueTypeField).

Lemma build_outer_congr (l : gomap str) (a b : gomap (cfval float64)) :
  (forall k, lookup k a = lookup k b) ->
  forall k,
    lookup k (fold_left
                (fun cf '(key, val) => fold_left (build_step ParseFloat key val) configuredFields cf)
                l a)
    = lookup k (fold_left
                  (fun cf '(key, val) => fold_left (build_step ParseFloat key val) configuredFields cf)
                  l b).
Proof.
  revert a b; induction l as [|[n v] l IH]; intros a b Hab; cbn [fold_left]; [exact Hab|].
  apply IH. intros k. rewrite !build_inner_lookup, Hab. reflexivity.
Qed.

Lemma build_outer_swap (n1 v1 n2 v2 : str) (acc : gomap (cfval float64)) (k : str) :
  NoDup (map Key configuredFields) -> ToLower n1 <> ToLower n2 ->
  lookup k (fold_left (build_step ParseFloat n2 v2) configuredFields
              (fold_left (build_step ParseFloat n1 v1) configuredFields acc))
  = lookup k (fold_left (build_step ParseFloat n1 v1) configuredFields
                (fold_left (build_step ParseFloat n2 v2) configuredFields acc)).
Proof.
  intros Hnd Hne. rewrite !build_inner_lookup.
  destruct (last_match n2 k configuredFields) as [c2|] eqn:E2;
    destruct (last_match n1 k configuredFields) as [c1|] eqn:E1; try reflexivity.
  exfalso.
  destruct (last_match_some _ _ _ _ E1) as [H1 [Hi1 Hk1]].
  destruct (last_match_some _ _ _ _ E2) as [H2 [Hi2 Hk2]].
  assert (c1 = c2) as <- by (apply (nodup_key_unique configuredFields); congruence).
  congruence.
Qed.

Lemma build_outer_perm (l l' : gomap str) :
  Permutation l l' -> NoDup (map (fun kv => ToLower (fst kv)) l) ->
  NoDup (map Key configuredFields) ->
  forall acc k,
    lookup k (fold_left
                (fun cf '(key, val) => fold_left (build_step ParseFloat key val) configuredFields cf)
                l acc)
    = lookup k (fold_left
                  (fun cf '(key, val) => fold_left (build_step ParseFloat key val) configuredFields cf)
                  l' acc).
Proof.
  intros Hp. induction Hp as [|[n v] l l' Hp IH|[n1 v1] [n2 v2] l|l l' l'' H1 IH1 H2 IH2];
    intros Hnd HK acc k.
  - reflexivity.
  - cbn [fold_left]. apply IH; [inversion Hnd; assumption|exact HK].
  - cbn [fold_left]. apply build_outer_congr. intros k'.
    cbn [map fst] in Hnd. inversion Hnd as [|? ? Hnot _]; subst.
    apply build_outer_swap; [exact HK|].
    intros E. apply Hnot. rewrite E. left; reflexivity.
  - rewrite (IH1 Hnd HK). apply IH2; [|exact HK].
    apply (Permutation_NoDup (Permutation_map _ H1) Hnd).
Qed.

End BuildOrder.

(** When the configured keys are distinct and no two requested names have
    the same lowercased form, the result of [BuildCustomFieldsForTransition]
    does not depend on the order in which the request map is iterated. *)
Theorem Build_order_independent {float64} (ParseFloat : str -> option float64)
    (fields fields' : gomap str) (configuredFields : list IssueTypeField) :
  NoDup (map Key configuredFields) ->
  NoDup (map (fun kv => ToLower (fst kv)) fields) ->
  Permutation fields fields' ->
  (BuildCustomFieldsForTransition ParseFloat fields configuredFields = None
   <-> BuildCustomFieldsForTransition ParseFloat fields' configuredFields = None)
  /\ forall m m' k,
       BuildCustomFieldsForTransition ParseFloat fields configuredFields = Some m ->
       BuildCustomFieldsForTransition ParseFloat fields' configuredFields = Some m' ->
       lookup k m = lookup k m'.
Proof.
  intros HK Hnd Hp. split.
  - unfold BuildCustomFieldsForTransition.
    destruct fields as [|kv fs]; destruct fields' as [|kv' fs'].
    + tauto.
    + apply Permutation_nil in Hp. discriminate.
    + apply Permutation_sym, Permutation_nil in Hp. discriminate.
    + destruct configuredFields; split; intros H; first [reflexivity | discriminate H].
  - intros m m' k Hm Hm'. apply Build_some in Hm, Hm'. subst m m'.
    apply build_outer_perm; assumption.
Qed.

Lemma Build_order_independent_witness :
  let cfs := [field "Story Points" "customfield_1" "number" "";
              field "Env" "customfield_2" "option" ""] in
  let req := [(lit "Story-Points", lit "5"); (lit "env", lit "prod")] in
  let req' := [(lit "env", lit "prod"); (lit "Story-Points", lit "5")] in
  NoDup (map Key cfs) /\ NoDup (map (fun kv => ToLower (fst kv)) req) /\ Permutation req req'
  /\ exists m m', BuildCustomFieldsForTransition parse_digits req cfs = Some m
                 /\ BuildCustomFieldsForTransition parse_digits req' cfs = Some m'
                 /\ lookup (lit "customfield_2") m = lookup (lit "customfield_2") m'.
Proof.
  intros cfs req req'.
  assert (HK : NoDup (map Key cfs)) by (repeat constructor; simpl; intuition discriminate).
  assert (Hnd : NoDup (map (fun kv => ToLower (fst kv)) req)).
  { vm_compute. constructor; [|constructor; [intros []|constructor]].
    intros [H|[]]. discriminate H. }
  assert (Hp : Permutation req req') by apply perm_swap.
  split; [exact HK|split; [exact Hnd|split; [exact Hp|]]].
  eexists; eexists; split; [reflexivity|split; [reflexivity|]].
  exact (proj2 (Build_order_independent parse_digits req req' cfs HK Hnd Hp) _ _ _
           eq_refl eq_refl).
Defined.

(** ** The members of the transition payload *)

Lemma Forall2_encode_det {A} (E : A -> json + str) (l : list (str * A))
    (c1 c2 : list (str * json)) :
  Forall2 (fun kv kj => fst kj = fst kv /\ E (snd kv) = inl (snd kj)) l c1 ->
  Forall2 (fun kv kj => fst kj = fst kv /\ E (snd kv) = inl (snd kj)) l c2 -> c1 = c2.
Proof.
  intros H; revert c2; induction H as [|kv kj l c1 [Hk Hj] _ IH]; intros c2 H2;
    inversion H2 as [|? kj' ? c2' [Hk' Hj'] Hr]; subst; [reflexivity|].
  f_equal; [|apply IH, Hr]. destruct kj as [a b], kj' as [a' b']. cbn [fst snd] in *.
  congruence.
Qed.

(** [transitionFieldsMarshaler.MarshalJSON] does not panic. It writes a
    payload exactly when every custom value can be encoded; the payload
    then has one member per key: the custom fields with their encoded
    values, together with the static members ([assignee], [resolution])
    whose key no custom field uses, with the names as the JSON round trip
    leaves them. Otherwise it returns the error of encoding one of the
    custom values. *)
Theorem Marshal_members {V} (EncodeV : V -> json + str) (fields : TransitionRequestFields V)
    (cf : option (gomap V)) :
  NoDup (map fst (custom_entries cf)) ->
  MarshalJSON EncodeV (NewTransitionFieldsMarshaler fields cf) <> None
  /\ ((exists out, MarshalJSON EncodeV (NewTransitionFieldsMarshaler fields cf) = Some (inl out))
      <-> Forall (fun kv => exists j, EncodeV (snd kv) = inl j) (custom_entries cf))
  /\ (forall out,
        MarshalJSON EncodeV (NewTransitionFieldsMarshaler fields cf) = Some (inl out) ->
        exists members cjs,
          out = encode (JObject members)
          /\ NoDup (map fst members)
          /\ Forall2 (fun kv kj => fst kj = fst kv /\ EncodeV (snd kv) = inl (snd kj))
                     (custom_entries cf) cjs
          /\ Permutation members
               (filter (fun kv => negb (existsb (str_eqb (fst kv)) (map fst (custom_entries cf))))
                       (static_members_decoded fields)
                ++ cjs))
  /\ (forall e,
        MarshalJSON EncodeV (NewTransitionFieldsMarshaler fields cf) = Some (inr e) ->
        exists kv, In kv (custom_entries cf) /\ EncodeV (snd kv) = inr e).
Proof.
  intros Hnd.
  destruct (merged_perm fields cf Hnd) as [dm0 [dm [_ [Hm [Hnd1 [Henc Hp]]]]]].
  set (ks := map fst (custom_entries cf)) in *.
  rewrite (MarshalJSON_merged EncodeV _ dm Hm).
  split; [discriminate|]. split; [|split].
  - rewrite <- (merged_encodable EncodeV dm0 (custom_entries cf)
                  (fun kv => negb (existsb (str_eqb (fst kv)) ks))).
    split.
    + intros [out Hout].
      destruct (encode_members EncodeV (sort_by_key dm)) as [ms|e] eqn:Ee; [|discriminate].
      apply (Permutation_Forall Hp), (Permutation_Forall (sort_by_key_perm dm)).
      apply encode_members_ok. exists ms; exact Ee.
    + intros Hall.
      apply (Permutation_Forall (Permutation_sym Hp)),
            (Permutation_Forall (Permutation_sym (sort_by_key_perm dm))) in Hall.
      apply encode_members_ok in Hall as [ms Hms]. rewrite Hms.
      exists (encode (JObject ms)). reflexivity.
  - intros out Hout.
    destruct (encode_members EncodeV (sort_by_key dm)) as [ms|e] eqn:Ee; [|discriminate].
    injection Hout as <-. apply encode_members_inl in Ee.
    destruct (Permutation_Forall2 (Permutation_trans (sort_by_key_perm dm) Hp) Ee)
      as [ms' [Hms Hf]].
    apply Forall2_app_inv_l in Hf as [a [b [Ha [Hb ->]]]].
    rewrite <- map_filter_notin in Ha. apply Forall2_decoded in Ha.
    apply Forall2_custom in Hb.
    exists ms, b. split; [reflexivity|split; [|split; [exact Hb|]]].
    + rewrite (Forall2_keys _ _ _ Ee).
      apply (Permutation_NoDup (Permutation_sym (Permutation_map fst (sort_by_key_perm dm)))).
      exact Hnd1.
    + rewrite Hms, Ha, map_filter_notin, Henc. reflexivity.
  - intros e He.
    destruct (encode_members EncodeV (sort_by_key dm)) as [ms|e'] eqn:Ee; [discriminate|].
    injection He as ->. apply encode_members_inr in Ee as [[k x] [Hx Hxe]].
    apply (Permutation_in _ (Permutation_trans (sort_by_key_perm dm) Hp)) in Hx.
    apply in_app_or in Hx as [Hx|Hx].
    + apply filter_In in Hx as [Hx _]. apply in_map_iff in Hx as [[k' g] [He _]].
      injection He as _ <-. cbn [snd encode_mval] in Hxe. discriminate.
    + apply in_map_iff in Hx as [[k' v] [He Hv]]. injection He as _ <-.
      exists (k', v). split; [exact Hv|exact Hxe].
Qed.

Lemma Marshal_members_witness :
  let fields := {| Assignee := Some (lit "john"); Resolution := Some (lit "Fixed");
                   customFields := @None (gomap str) |} in
  let custom := [(lit "resolution", lit "Done"); (lit "customfield_1", lit "x")] in
  let E := fun s : str => @inl json str (JString s) in
  NoDup (map fst custom)
  /\ exists members cjs,
       MarshalJSON E (NewTransitionFieldsMarshaler fields (Some custom))
         = Some (inl (encode (JObject members)))
       /\ cjs = [(lit "resolution", JString (lit "Done"));
                 (lit "customfield_1", JString (lit "x"))]
       /\ Permutation members
            ([(lit "assignee", JObject [(lit "name", JString (lit "john"))])] ++ cjs).
Proof.
  intros fields custom E.
  assert (H : NoDup (map fst (custom_entries (Some custom)))) by prove_nodup.
  split; [exact H|].
  destruct (Marshal_members E fields (Some custom) H) as [_ [Hok [Hout _]]].
  destruct (proj2 Hok) as [out Hm].
  { apply Forall_cons; [eexists; reflexivity|].
    apply Forall_cons; [eexists; reflexivity|apply Forall_nil]. }
  destruct (Hout out Hm) as [members [cjs [-> [_ [Hf Hp]]]]].
  exists members, cjs. split; [exact Hm|split; [|exact Hp]].
  apply (Forall2_encode_det E custom _ _ Hf).
  repeat constructor.
Defined.

(** ** Key order of [json.Marshal] *)

Lemma str_ltb_irrefl (a : str) : str_ltb a a = false.
Proof.
  induction a as [|x a IH]; cbn [str_ltb]; [reflexivity|].
  rewrite Nat.ltb_irrefl. exact IH.
Qed.

Lemma str_ltb_trans (a b c : str) :
  str_ltb a b = true -> str_ltb b c = true -> str_ltb a c = true.
Proof.
  revert b c; induction a as [|x a IH]; intros [|y b] [|z c]; cbn [str_ltb]; try discriminate;
    try reflexivity.
  destruct (Nat.ltb_spec (nat_of_ascii x) (nat_of_ascii y));
  destruct (Nat.ltb_spec (nat_of_ascii y) (nat_of_ascii x));
  destruct (Nat.ltb_spec (nat_of_ascii y) (nat_of_ascii z));
  destruct (Nat.ltb_spec (nat_of_ascii z) (nat_of_ascii y));
  destruct (Nat.ltb_spec (nat_of_ascii x) (nat_of_ascii z));
  destruct (Nat.ltb_spec (nat_of_ascii z) (nat_of_ascii x));
  intros Hab Hbc; try discriminate; try reflexivity; try lia.
  apply (IH b c Hab Hbc).
Qed.

Lemma str_ltb_total (a b : str) : a <> b -> str_ltb a b = true \/ str_ltb b a = true.
Proof.
  revert b; induction a as [|x a IH]; intros [|y b] Hne; cbn [str_ltb];
    try (exfalso; apply Hne; reflexivity); auto.
  destruct (Nat.ltb_spec (nat_of_ascii x) (nat_of_ascii y)); auto.
  destruct (Nat.ltb_spec (nat_of_ascii y) (nat_of_ascii x)); auto.
  assert (x = y).
  { rewrite <- (ascii_nat_embedding x), <- (ascii_nat_embedding y). f_equal. lia. }
  subst y. apply IH. congruence.
Qed.

Definition key_lt {A} (x y : str * A) : Prop := str_ltb (fst x) (fst y) = true.

Lemma insert_by_key_sorted {A} (e : str * A) (l : list (str * A)) :
  StronglySorted key_lt l -> ~ In (fst e) (map fst l) ->
  StronglySorted key_lt (insert_by_key e l).
Proof.
  induction l as [|e' l IH]; intros Hs Hn; cbn.
  - repeat constructor.
  - apply StronglySorted_inv in Hs as [Hs Hf].
    destruct (str_ltb (fst e) (fst e')) eqn:E.
    + constructor; [constructor; assumption|].
      constructor; [exact E|].
      eapply Forall_impl; [|exact Hf]. intros x Hx. eapply str_ltb_trans; eassumption.
    + assert (E' : str_ltb (fst e') (fst e) = true).
      { destruct (str_ltb_total (fst e) (fst e')) as [H|H]; [|congruence|exact H].
        intros Heq; apply Hn; left; symmetry; exact Heq. }
      constructor.
      * apply IH; [exact Hs|]. intros H; apply Hn; right; exact H.
      * apply (Permutation_Forall (Permutation_sym (insert_by_key_perm e l))).
        constructor; [exact E'|exact Hf].
Qed.

Lemma sort_by_key_sorted {A} (l : list (str * A)) :
  NoDup (map fst l) -> StronglySorted key_lt (sort_by_key l).
Proof.
  induction l as [|e l IH]; intros Hnd; cbn; [constructor|].
  inversion Hnd as [|? ? Hn Hnd']; subst.
  apply insert_by_key_sorted; [apply IH, Hnd'|].
  intros H; apply Hn.
  apply (Permutation_in _ (Permutation_map fst (sort_by_key_perm l))), H.
Qed.

Lemma sorted_perm_eq {A} (l l' : list (str * A)) :
  StronglySorted key_lt l -> StronglySorted key_lt l' -> Permutation l l' -> l = l'.
Proof.
  revert l'; induction l as [|a l IH]; intros l' Hs Hs' Hp.
  - symmetry; apply Permutation_nil, Hp.
  - destruct l' as [|b l'].
    + apply Permutation_sym, Permutation_nil in Hp; discriminate.
    + apply StronglySorted_inv in Hs as [Hs Hf].
      apply StronglySorted_inv in Hs' as [Hs' Hf'].
      assert (a = b).
      { destruct (Permutation_in a Hp (or_introl eq_refl)) as [E|Ha]; [symmetry; exact E|].
        destruct (Permutation_in b (Permutation_sym Hp) (or_introl eq_refl)) as [E|Hb];
          [exact E|].
        rewrite Forall_forall in Hf, Hf'.
        pose proof (str_ltb_trans _ _ _ (Hf b Hb) (Hf' a Ha)) as Hc.
        rewrite str_ltb_irrefl in Hc; discriminate. }
      subst b. f_equal. apply IH; [exact Hs|exact Hs'|].
      apply Permutation_cons_inv in Hp; exact Hp.
Qed.

Lemma sort_by_key_unique {A} (l l' : list (str * A)) :
  NoDup (map fst l) -> Permutation l l' -> sort_by_key l = sort_by_key l'.
Proof.
  intros Hnd Hp.
  apply sorted_perm_eq.
  - apply sort_by_key_sorted, Hnd.
  - apply sort_by_key_sorted. apply (Permutation_NoDup (Permutation_map fst Hp)), Hnd.
  - rewrite !sort_by_key_perm. exact Hp.
Qed.

(** [transitionFieldsMarshaler.MarshalJSON] gives the same result in
    whatever order the custom-field map is iterated: two orders of the same
    custom fields (distinct keys) give the same bytes, or the same error. *)
Theorem Marshal_order_independent {V} (EncodeV : V -> json + str)
    (fields : TransitionRequestFields V) (custom custom' : gomap V) :
  NoDup (map fst custom) -> Permutation custom custom' ->
  MarshalJSON EncodeV (NewTransitionFieldsMarshaler fields (Some custom))
  = MarshalJSON EncodeV (NewTransitionFieldsMarshaler fields (Some custom')).
Proof.
  intros Hnd Hp.
  assert (Hnd' : NoDup (map fst custom')) by
    (apply (Permutation_NoDup (Permutation_map fst Hp)), Hnd).
  destruct (merged_perm fields (Some custom) Hnd) as [dm0 [dm [Hd [Hm [Hn1 [_ Hp1]]]]]].
  destruct (merged_perm fields (Some custom') Hnd') as [dm0' [dm' [Hd' [Hm' [_ [_ Hp1']]]]]].
  assert (dm0' = dm0) by congruence. subst dm0'.
  rewrite (MarshalJSON_merged EncodeV _ dm Hm), (MarshalJSON_merged EncodeV _ dm' Hm').
  rewrite (sort_by_key_unique dm dm' Hn1); [reflexivity|].
  rewrite Hp1, Hp1'. cbn [custom_entries]. apply Permutation_app.
  - rewrite (filter_ext _ (fun kv => negb (existsb (str_eqb (fst kv)) (map fst custom'))));
      [reflexivity|]. intros kv. f_equal.
    apply Bool.eq_iff_eq_true. rewrite !existsb_str_eqb. split; intros H.
    + apply (Permutation_in _ (Permutation_map fst Hp)), H.
    + apply (Permutation_in _ (Permutation_map fst (Permutation_sym Hp))), H.
  - apply Permutation_map, Hp.
Qed.

Lemma Marshal_order_independent_witness :
  let fields := {| Assignee := Some (lit "john"); Resolution := None;
                   customFields := @None (gomap str) |} in
  let custom := [(lit "customfield_2", lit "b"); (lit "customfield_1", lit "a")] in
  let custom' := [(lit "customfield_1", lit "a"); (lit "customfield_2", lit "b")] in
  let E := fun s : str => @inl json str (JString s) in
  NoDup (map fst custom) /\ Permutation custom custom'
  /\ MarshalJSON E (NewTransitionFieldsMarshaler fields (Some custom))
     = MarshalJSON E (NewTransitionFieldsMarshaler fields (Some custom')).
Proof.
  intros fields custom custom' E.
  assert (H1 : NoDup (map fst custom)) by prove_nodup.
  assert (H2 : Permutation custom custom') by apply perm_swap.
  split; [exact H1|split; [exact H2|]].
  apply (Marshal_order_independent E fields custom custom' H1 H2).
Defined.

(** ** The transitions client *)

Ltac solve_outcome :=
  intros;
  repeat match goal with
         | H : exists _, _ |- _ => destruct H
         | H : _ /\ _ |- _ => destruct H
         end;
  first [ congruence
        | eexists; eexists; split; [reflexivity|eassumption]
        | split; [reflexivity|discriminate]
        | exfalso; match goal with
                   | H : forall _ _ _, _ -> _ <> _ |- _ => eapply H; [reflexivity|eassumption]
                   end ].

(** [c.Transition] returns a nil error exactly when the payload marshals
    and the POST to [/issue/{key}/transitions] answers 204 No Content; any
    other status, 200 included, is returned with an error. When a response
    arrives its status is the code returned; when none does (marshaling
    error, transport error, nil response) the code is 0 and the error is
    set. *)
Theorem Transition_outcome (ErrEmptyResponse : str)
    (formatUnexpectedResponse : nat -> str -> str) (PostV2 : str -> str -> http_result)
    {TransitionRequest} (MarshalRequest : TransitionRequest -> str + str)
    (key : str) (data : TransitionRequest) :
  let r := Transition ErrEmptyResponse formatUnexpectedResponse PostV2 MarshalRequest key data in
  (snd r = None
   <-> exists body b, MarshalRequest data = inl body
                      /\ PostV2 (lit "/issue/" ++ key ++ lit "/transitions") body = HTTPRes 204 b)
  /\ (forall body st b, MarshalRequest data = inl body ->
        PostV2 (lit "/issue/" ++ key ++ lit "/transitions") body = HTTPRes st b ->
        fst r = st)
  /\ ((forall body st b, MarshalRequest data = inl body ->
         PostV2 (lit "/issue/" ++ key ++ lit "/transitions") body <> HTTPRes st b) ->
      fst r = 0 /\ snd r <> None).
Proof.
  intros r; unfold r, Transition, transitions_path.
  destruct (MarshalRequest data) as [body|err] eqn:Em.
  - destruct (PostV2 (lit "/issue/" ++ key ++ lit "/transitions") body) as [e| |st b] eqn:Ep.
    + cbn [fst snd]; split; [split|split]; solve_outcome.
    + cbn [fst snd]; split; [split|split]; solve_outcome.
    + destruct (Nat.eqb_spec st 204) as [->|Hne]; cbn [negb fst snd];
        (split; [split|split]); solve_outcome.
  - cbn [fst snd]; split; [split|split]; solve_outcome.
Qed.

(** [c.Transitions] (API v3) asks [c.Get] only and [c.TransitionsV2] asks
    [c.GetV2] only. Either returns transitions, or a nil error, only from a
    200 response, and then returns what the decoder gives for its body; an
    HTTP failure or another status gives no transitions. *)
Theorem transitions_outcome (ErrEmptyResponse : str)
    (formatUnexpectedResponse : nat -> str -> str) (Get GetV2 : str -> http_result)
    (apiVersion2 apiVersion3 : str) {TransitionT}
    (DecodeTransitions : str -> list TransitionT * option str) (key : str) :
  apiVersion2 <> apiVersion3 ->
  (forall GetV2',
     Transitions ErrEmptyResponse formatUnexpectedResponse Get GetV2 apiVersion2 apiVersion3
       DecodeTransitions key
     = Transitions ErrEmptyResponse formatUnexpectedResponse Get GetV2' apiVersion2 apiVersion3
         DecodeTransitions key)
  /\ (forall Get',
        TransitionsV2 ErrEmptyResponse formatUnexpectedResponse Get GetV2 apiVersion2
          DecodeTransitions key
        = TransitionsV2 ErrEmptyResponse formatUnexpectedResponse Get' GetV2 apiVersion2
            DecodeTransitions key)
  /\ (let r := Transitions ErrEmptyResponse formatUnexpectedResponse Get GetV2 apiVersion2
                 apiVersion3 DecodeTransitions key in
      fst r <> [] \/ snd r = None ->
      exists body, Get (lit "/issue/" ++ key ++ lit "/transitions") = HTTPRes 200 body
                   /\ DecodeTransitions body = r)
  /\ (let r := TransitionsV2 ErrEmptyResponse formatUnexpectedResponse Get GetV2 apiVersion2
                 DecodeTransitions key in
      fst r <> [] \/ snd r = None ->
      exists body, GetV2 (lit "/issue/" ++ key ++ lit "/transitions") = HTTPRes 200 body
                   /\ DecodeTransitions body = r).
Proof.
  intros Hv.
  assert (E3 : str_eqb apiVersion3 apiVersion2 = false).
  { apply str_eqb_neq. intros E; apply Hv; symmetry; exact E. }
  unfold Transitions, TransitionsV2, transitions, transitions_path.
  rewrite E3, str_eqb_refl.
  split; [reflexivity|split; [reflexivity|split]].
  - destruct (Get (lit "/issue/" ++ key ++ lit "/transitions")) as [e| |st b] eqn:Eg;
      cbn [fst snd]; intros [H|H]; try congruence.
    all: destruct (Nat.eqb_spec st 200) as [->|Hne]; cbn [negb fst snd] in *;
      try congruence; exists b; split; reflexivity.
  - destruct (GetV2 (lit "/issue/" ++ key ++ lit "/transitions")) as [e| |st b] eqn:Eg;
      cbn [fst snd]; intros [H|H]; try congruence.
    all: destruct (Nat.eqb_spec st 200) as [->|Hne]; cbn [negb fst snd] in *;
      try congruence; exists b; split; reflexivity.
Qed.

Lemma transitions_outcome_witness :
  lit "2" <> lit "3"
  /\ exists body,
       (fun _ : str => HTTPRes 200 (lit "[t]")) (lit "/issue/" ++ lit "ISS-1" ++ lit "/transitions")
         = HTTPRes 200 body
       /\ (fun b : str => ([b], @None str)) body
          = Transitions (lit "empty") (fun _ b => b) (fun _ => HTTPRes 200 (lit "[t]"))
              (fun _ => HTTPNil) (lit "2") (lit "3") (fun b : str => ([b], @None str))
              (lit "ISS-1").
Proof.
  assert (Hv : lit "2" <> lit "3") by (intros E; vm_compute in E; discriminate E).
  split; [exact Hv|].
  destruct (transitions_outcome (lit "empty") (fun _ b => b) (fun _ => HTTPRes 200 (lit "[t]"))
              (fun _ => HTTPNil) (lit "2") (lit "3") (fun b : str => ([b], @None str))
              (lit "ISS-1") Hv) as [_ [_ [H _]]].
  apply H. right. reflexivity.
Defined.

(** ** Fetching the fields of an issue type *)

(** [c.GetIssueTypeFields] never dereferences a nil response: the
    [c.GetCreateMeta] it calls returns a non-nil error whenever its
    response is nil; it panics exactly when [GET
    /issue/createmeta?projectKeys={project}&expand=projects.issuetypes.fields]
    answers 200, the body decodes without error and the scan of the first
    project's issue types reaches a nil one. It yields fields exactly when
    the request answers 200, the body decodes without error and the
    decoded metadata has the issue type in its first project; a decoding
    error is returned even when a response was decoded. *)
Theorem GetIssueTypeFields_client_spec (ErrEmptyResponse : str)
    (formatUnexpectedResponse : nat -> str -> str) (GetV2 : str -> http_result)
    (DecodeCreateMeta : str -> CreateMeta.Response * option str)
    (project issueTypeID : str) (fields : list IssueTypeField) :
  let path := lit "/issue/createmeta?projectKeys=" ++ project
              ++ lit "&expand=projects.issuetypes.fields" in
  let r := GetIssueTypeFields_client ErrEmptyResponse formatUnexpectedResponse GetV2
             DecodeCreateMeta project issueTypeID in
  (r = None
   <-> exists body m, GetV2 path = HTTPRes 200 body /\ DecodeCreateMeta body = (m, None)
                      /\ CreateMeta.GetIssueTypeFields (CreateMeta.Ok m) project issueTypeID
                         = None)
  /\ (r = Some (CreateMeta.Ok fields)
      <-> exists body m, GetV2 path = HTTPRes 200 body /\ DecodeCreateMeta body = (m, None)
                         /\ CreateMeta.GetIssueTypeFields (CreateMeta.Ok m) project issueTypeID
                            = Some (CreateMeta.Ok fields))
  /\ (forall body m e, GetV2 path = HTTPRes 200 body -> DecodeCreateMeta body = (m, Some e) ->
        r = Some (CreateMeta.Err e)).
Proof.
  intros path r.
  assert (Hp : GetCreateMeta_path {| Projects := project; IssueTypeNames := [];
                                      Expand := lit "projects.issuetypes.fields" |} = path)
    by reflexivity.
  unfold r, GetIssueTypeFields_client, GetCreateMeta. rewrite Hp.
  destruct (GetV2 path) as [e| |st b] eqn:Eg.
  - split; [split; [discriminate|]|split; [split; [discriminate|]|]]; solve_outcome.
  - split; [split; [discriminate|]|split; [split; [discriminate|]|]]; solve_outcome.
  - destruct (Nat.eqb_spec st 200) as [->|Hne]; cbn [negb].
    + destruct (DecodeCreateMeta b) as [m [e|]] eqn:Ed.
      * split; [split; [discriminate|]|split; [split; [discriminate|]|]]; solve_outcome.
      * split; [split|split; [split|]].
        -- intros H. exists b, m. auto.
        -- intros (body & m' & E1 & E2 & E3). injection E1 as <-.
           rewrite Ed in E2. injection E2 as <-. exact E3.
        -- intros H. exists b, m. auto.
        -- intros (body & m' & E1 & E2 & E3). injection E1 as <-.
           rewrite Ed in E2. injection E2 as <-. exact E3.
        -- intros body m' e E1 E2. injection E1 as <-. congruence.
    + split; [split; [discriminate|]|split; [split; [discriminate|]|]]; solve_outcome.
Qed.

(** ** Metadata questions and answers *)

Lemma metadata_question_name (c : str) :
  option_map Survey.Name (Survey.metadata_question c)
  = if existsb (str_eqb c) Survey.GetMetadataOptions then Some (ToLower c) else None.
Proof.
  unfold Survey.metadata_question, Survey.GetMetadataOptions. cbn [existsb].
  destruct (str_eqb c (lit "Priority")) eqn:E1;
    [apply str_eqb_eq in E1; subst; reflexivity|].
  destruct (str_eqb c (lit "Components")) eqn:E2;
    [apply str_eqb_eq in E2; subst; reflexivity|].
  destruct (str_eqb c (lit "Labels")) eqn:E3;
    [apply str_eqb_eq in E3; subst; reflexivity|].
  destruct (str_eqb c (lit "FixVersions")) eqn:E4;
    [apply str_eqb_eq in E4; subst; reflexivity|].
  destruct (str_eqb c (lit "AffectsVersions")) eqn:E5;
    [apply str_eqb_eq in E5; subst; reflexivity|].
  reflexivity.
Qed.

Lemma metadata_questions_fold (cat : list str) (acc : list Survey.Question) :
  map Survey.Name
    (fold_left (fun qs c => match Survey.metadata_question c with
                            | Some q => qs ++ [q]
                            | None => qs
                            end) cat acc)
  = map Survey.Name acc
    ++ map ToLower (filter (fun c => existsb (str_eqb c) Survey.GetMetadataOptions) cat).
Proof.
  revert acc; induction cat as [|c cat IH]; intros acc; cbn [fold_left filter map].
  - rewrite app_nil_r. reflexivity.
  - rewrite IH. pose proof (metadata_question_name c) as Hn.
    destruct (Survey.metadata_question c) as [q|];
      destruct (existsb (str_eqb c) Survey.GetMetadataOptions); cbn [option_map] in Hn;
      try discriminate Hn.
    + injection Hn as Hn. rewrite map_app, <- app_assoc. cbn [map]. rewrite Hn. reflexivity.
    + reflexivity.
Qed.

(** [GetMetadataQuestions(cat)] asks one question per category of [cat]
    that is one of the options offered by [GetMetadata], in the order of
    [cat] and with repeats kept, named by the lower-cased category; any
    other category is skipped. *)
Theorem GetMetadataQuestions_names (cat : list str) :
  map Survey.Name (Survey.GetMetadataQuestions cat)
  = map ToLower (filter (fun c => existsb (str_eqb c) Survey.GetMetadataOptions) cat).
Proof.
  unfold Survey.GetMetadataQuestions. rewrite metadata_questions_fold. reflexivity.
Qed.

Lemma Join_cons_head (c : ascii) (p : str) (ps : list str) (sep : str) :
  Join ((c :: p) :: ps) sep = c :: Join (p :: ps) sep.
Proof. destruct ps; reflexivity. Qed.

Lemma Join_Split (s : str) (sep : ascii) : Join (Split s sep) [sep] = s.
Proof.
  induction s as [|c s IH]; [reflexivity|]. cbn [Split].
  pose proof (Split_not_nil s sep) as Hne.
  destruct (Ascii.eqb c sep) eqn:E.
  - apply Ascii.eqb_eq in E; subst c. revert IH.
    destruct (Split s sep) as [|p ps]; [contradiction|]. intros IH.
    change (Join ([] :: p :: ps) [sep]) with ([] ++ [sep] ++ Join (p :: ps) [sep]).
    rewrite IH. reflexivity.
  - revert IH. destruct (Split s sep) as [|p ps]; [contradiction|]. intros IH.
    rewrite Join_cons_head, IH. reflexivity.
Qed.

Lemma Split_length (s : str) (sep : ascii) :
  List.length (Split s sep) = S (count_occ ascii_dec s sep).
Proof.
  induction s as [|c s IH]; [reflexivity|]. cbn [Split count_occ].
  pose proof (Split_not_nil s sep) as Hne.
  destruct (Ascii.eqb c sep) eqn:E.
  - apply Ascii.eqb_eq in E; subst c. destruct (ascii_dec sep sep); [|contradiction].
    cbn [List.length]. rewrite IH. reflexivity.
  - destruct (ascii_dec c sep) as [Ec|_]; [subst; rewrite Ascii.eqb_refl in E; discriminate|].
    revert IH. destruct (Split s sep) as [|p ps]; [contradiction|]. intros IH. exact IH.
Qed.

(** After the metadata answers [ans] in [HandleNoInput], a priority answer
    replaces the priority only when non-empty. Each list answer (labels,
    components, fix versions, affects versions) leaves its field unchanged
    when empty; otherwise the field becomes its comma-separated pieces,
    empty pieces included: joined with commas they give back the answer,
    and there is one more piece than there are commas. *)
Theorem apply_metadata_spec (params : Create.CreateParams) (ans : Answers.t) :
  let p := Create.apply_metadata params ans in
  (Answers.Priority ans = [] -> Create.Priority p = Create.Priority params)
  /\ (Answers.Priority ans <> [] -> Create.Priority p = Answers.Priority ans)
  /\ Forall (fun t : list str * str * list str =>
               let '(old, a, new) := t in
               (a = [] -> new = old)
               /\ (a <> [] -> Join new [","%char] = a
                              /\ List.length new = S (count_occ ascii_dec a ","%char)))
       [(Create.Labels params, Answers.Labels ans, Create.Labels p);
        (Create.Components params, Answers.Components ans, Create.Components p);
        (Create.FixVersions params, Answers.FixVersions ans, Create.FixVersions p);
        (Create.AffectsVersions params, Answers.AffectsVersions ans, Create.AffectsVersions p)].
Proof.
  intros p. unfold p, Create.apply_metadata. cbn [Create.Priority Create.Labels
    Create.Components Create.FixVersions Create.AffectsVersions].
  split; [|split].
  - intros E; rewrite E. reflexivity.
  - intros E. apply str_eqb_neq in E. rewrite E. reflexivity.
  - assert (Hl : forall (a : str) (old : list str),
               (a = [] -> (if 0 <? List.length a then Split a ","%char else old) = old)
               /\ (a <> [] -> Join (if 0 <? List.length a then Split a ","%char else old)
                                   [","%char] = a
                              /\ List.length (if 0 <? List.length a then Split a ","%char
                                              else old)
                                 = S (count_occ ascii_dec a ","%char))).
    { intros [|c a] old; split; intros H; try congruence; try reflexivity.
      cbn [List.length Nat.ltb Nat.leb]. split; [apply Join_Split|apply Split_length]. }
    repeat (apply Forall_cons; [apply Hl|]). apply Forall_nil.
Qed.

(** [c.GetCreateMeta] and [c.GetCreateMetaForJiraServerV9] never return a
    nil response with a nil error. Each returns a response exactly when the
    GET of its path answers 200, and then it is what the decoder gives for
    the body, with the decoder's error alongside; the query parameter
    [issuetypeNames] is added to either path only for a non-empty
    [IssueTypeNames]. *)
Theorem GetCreateMeta_outcome (ErrEmptyResponse : str)
    (formatUnexpectedResponse : nat -> str -> str) (GetV2 : str -> http_result)
    (DecodeCreateMeta : str -> CreateMeta.Response * option str)
    {ResponseV9} (DecodeCreateMetaV9 : str -> ResponseV9 * option str)
    (req : CreateMetaRequest) :
  let r := GetCreateMeta ErrEmptyResponse formatUnexpectedResponse GetV2 DecodeCreateMeta req in
  let r9 := GetCreateMetaForJiraServerV9 ErrEmptyResponse formatUnexpectedResponse GetV2
              DecodeCreateMetaV9 req in
  (fst r = None -> snd r <> None)
  /\ (forall m, fst r = Some m
        <-> exists body e, GetV2 (GetCreateMeta_path req) = HTTPRes 200 body
                           /\ DecodeCreateMeta body = (m, e) /\ snd r = e)
  /\ (fst r9 = None -> snd r9 <> None)
  /\ (forall m, fst r9 = Some m
        <-> exists body e, GetV2 (GetCreateMetaForJiraServerV9_path req) = HTTPRes 200 body
                           /\ DecodeCreateMetaV9 body = (m, e) /\ snd r9 = e)
  /\ (IssueTypeNames req = [] ->
      GetCreateMeta_path req
      = lit "/issue/createmeta?projectKeys=" ++ Projects req ++ lit "&expand=" ++ Expand req
      /\ GetCreateMetaForJiraServerV9_path req
         = lit "/issue/createmeta/" ++ Projects req ++ lit "/issuetypes?expand=" ++ Expand req)
  /\ (IssueTypeNames req <> [] ->
      GetCreateMeta_path req
      = lit "/issue/createmeta?projectKeys=" ++ Projects req ++ lit "&expand=" ++ Expand req
        ++ lit "&issuetypeNames=" ++ IssueTypeNames req
      /\ GetCreateMetaForJiraServerV9_path req
         = lit "/issue/createmeta/" ++ Projects req ++ lit "/issuetypes?expand=" ++ Expand req
           ++ lit "&issuetypeNames=" ++ IssueTypeNames req).
Proof.
  intros r r9. split; [|split; [|split; [|split; [|split]]]].
  - unfold r, GetCreateMeta. destruct (GetV2 (GetCreateMeta_path req)) as [e| |st b];
      [discriminate|discriminate|].
    destruct (st =? 200); cbn [negb]; [|discriminate].
    destruct (DecodeCreateMeta b); discriminate.
  - intros m. unfold r, GetCreateMeta.
    destruct (GetV2 (GetCreateMeta_path req)) as [e| |st b];
      [split; [discriminate|intros (? & ? & E & _); discriminate E]
      |split; [discriminate|intros (? & ? & E & _); discriminate E]|].
    destruct (Nat.eqb_spec st 200) as [->|Hne]; cbn [negb].
    + destruct (DecodeCreateMeta b) as [m' e'] eqn:Ed. cbn [fst snd]. split.
      * intros E; injection E as <-. exists b, e'. auto.
      * intros (body & e & E1 & E2 & E3). injection E1 as <-. congruence.
    + split; [discriminate|]. intros (body & e & E1 & _). injection E1 as E1; congruence.
  - unfold r9, GetCreateMetaForJiraServerV9.
    destruct (GetV2 (GetCreateMetaForJiraServerV9_path req)) as [e| |st b];
      [discriminate|discriminate|].
    destruct (st =? 200); cbn [negb]; [|discriminate].
    destruct (DecodeCreateMetaV9 b); discriminate.
  - intros m. unfold r9, GetCreateMetaForJiraServerV9.
    destruct (GetV2 (GetCreateMetaForJiraServerV9_path req)) as [e| |st b];
      [split; [discriminate|intros (? & ? & E & _); discriminate E]
      |split; [discriminate|intros (? & ? & E & _); discriminate E]|].
    destruct (Nat.eqb_spec st 200) as [->|Hne]; cbn [negb].
    + destruct (DecodeCreateMetaV9 b) as [m' e'] eqn:Ed. cbn [fst snd]. split.
      * intros E; injection E as <-. exists b, e'. auto.
      * intros (body & e & E1 & E2 & E3). injection E1 as <-. congruence.
    + split; [discriminate|]. intros (body & e & E1 & _). injection E1 as E1; congruence.
  - intros E. unfold GetCreateMeta_path, GetCreateMetaForJiraServerV9_path.
    rewrite E. cbn [str_eqb]. rewrite !app_nil_r. split; reflexivity.
  - intros E. apply str_eqb_neq in E.
    unfold GetCreateMeta_path, GetCreateMetaForJiraServerV9_path. rewrite E.
    split; reflexivity.
Qed.
